(** * Semantic versions and version ranges (package [semver])

    A shallow embedding of [version.go] and [versionrange.go]: the version
    model with its ordering, the parser of version and range literals, the
    bound algebra ([intersection], [union], [asRestrictedAs]) and the range
    aggregate with its normaliser ([newVersionRange]).

    Go's [int] is taken at its 64-bit width and modelled as [Z] with the
    two's complement wrap-around written out.  Go strings are byte strings
    and are modelled by [string].  A slice that may be [nil] is an
    [option (list _)], [None] being the nil slice. *)

From Stdlib Require Import ZArith List String Ascii Bool Lia DecimalString.
From Stdlib Require Decimal DecimalFacts DecimalPos.
Import ListNotations.

Local Open Scope list_scope.
Local Open Scope string_scope.
Local Open Scope Z_scope.

(** ** The parts of the Go runtime and standard library the package uses *)

Module Go.

(** *** [int]: 64-bit two's complement *)

Definition MaxInt64 : Z := 9223372036854775807.
Definition MinInt64 : Z := -9223372036854775808.

Definition wrap64 (z : Z) : Z := (z + 2 ^ 63) mod 2 ^ 64 - 2 ^ 63.

Definition add (a b : Z) : Z := wrap64 (a + b).
Definition sub (a b : Z) : Z := wrap64 (a - b).

(** *** Character classes of the regular expressions *)

Definition between (lo hi : N) (c : ascii) : bool :=
  ((lo <=? N_of_ascii c) && (N_of_ascii c <=? hi))%N.

(** [[0-9]] *)
Definition isDigit (c : ascii) : bool := between 48 57 c.
(** [[1-9]] *)
Definition isDigit19 (c : ascii) : bool := between 49 57 c.
(** [[A-Za-z-]] *)
Definition isAlphaHyphen (c : ascii) : bool :=
  between 65 90 c || between 97 122 c || (c =? "-")%char.
(** [[0-9A-Za-z-]] *)
Definition isPartChar (c : ascii) : bool := isDigit c || isAlphaHyphen c.
(** [\s], which in Go's syntax is [[\t\n\f\r ]] *)
Definition isSpace (c : ascii) : bool :=
  let n := N_of_ascii c in
  ((n =? 9) || (n =? 10) || (n =? 12) || (n =? 13) || (n =? 32))%N.

(** *** [strconv] *)

Inductive NumError := ErrSyntax | ErrRange.

Fixpoint digits (acc : Z) (s : string) : option Z :=
  match s with
  | "" => Some acc
  | String c r =>
      if isDigit c
      then digits (acc * 10 + (Z.of_N (N_of_ascii c) - 48)) r
      else None
  end.

(** The unsigned magnitude: at least one digit, digits only. *)
Definition magnitude (s : string) : option Z :=
  match s with
  | "" => None
  | _ => digits 0 s
  end.

(** [strconv.ParseInt(s, 10, 64)]: an optional sign, then decimal digits.
    A value out of range comes back as the nearest bound together with
    [ErrRange]; a malformed text as 0 with [ErrSyntax]. *)
Definition ParseInt (s : string) : Z * option NumError :=
  let '(neg, body) :=
    match s with
    | String "+" r => (false, r)
    | String "-" r => (true, r)
    | _ => (false, s)
    end in
  match magnitude body with
  | None => (0, Some ErrSyntax)
  | Some un =>
      if negb neg && (2 ^ 63 <=? un) then (MaxInt64, Some ErrRange)
      else if neg && (2 ^ 63 <? un) then (MinInt64, Some ErrRange)
      else (if neg then - un else un, None)
  end.

(** [strconv.Atoi] is [ParseInt(s, 10, 0)] converted to [int]. *)
Definition Atoi (s : string) : Z * option NumError := ParseInt s.

(** [fmt]'s [%d] *)
Definition itoa (z : Z) : string := NilZero.string_of_int (Z.to_int z).

(** *** [strings] *)

Definition Compare (a b : string) : Z :=
  match String.compare a b with
  | Lt => -1
  | Eq => 0
  | Gt => 1
  end.

(** [strings.Split(s, sep)] for a separator of one byte. *)
Fixpoint Split (sep : ascii) (s : string) : list string :=
  match s with
  | "" => [""]
  | String c r =>
      if (c =? sep)%char then "" :: Split sep r
      else match Split sep r with
           | h :: t => String c h :: t
           | [] => [String c ""]
           end
  end.

(** The longest prefix whose bytes satisfy [p], and what follows it. *)
Fixpoint span (p : ascii -> bool) (s : string) : string * string :=
  match s with
  | "" => ("", "")
  | String c r =>
      if p c then let '(a, b) := span p r in (String c a, b)
      else ("", s)
  end.

End Go.

(** ** Errors of the package *)

Inductive error :=
| NegativeNumbers                 (* negative numbers not accepted in version *)
| IllegalCharacters (tag : string)  (* Illegal characters in <tag> *)
| NotAVersion (s : string)        (* the string '<s>' does not represent a valid semantic version *)
| NotARange (s : string)          (* '<s>' is not a valid version range *)
| IllegalTriplet                  (* illegal version triplet *)
| NilBound.                       (* a nil abstractRange stored in a range *)

Inductive result (A : Type) :=
| Ok (a : A)
| Err (e : error).
Arguments Ok {A} a.
Arguments Err {A} e.

Definition bind {A B} (r : result A) (k : A -> result B) : result B :=
  match r with
  | Ok a => k a
  | Err e => Err e
  end.

Notation "x <- c ;; k" := (bind c (fun x => k))
  (at level 61, c at next level, right associativity).
Notation "' pat <- c ;; k" := (bind c (fun x => match x with pat => k end))
  (at level 61, pat pattern, c at next level, right associativity).

(** ** version.go *)

(** A pre-release or build segment: [interface{}] holding an [int] or a
    [string]. *)
Inductive segment :=
| SInt (i : Z)
| SStr (s : string).

Record version := mkVersion {
  major : Z;
  minor : Z;
  patch : Z;
  preRelease : option (list segment);
  build : option (list segment)
}.

(** [var minPrereleases []interface{}]: declared without a value, so it is
    the nil slice. *)
Definition minPrereleases : option (list segment) := None.

Definition Max : version := mkVersion Go.MaxInt64 Go.MaxInt64 Go.MaxInt64 None None.
Definition Min : version := mkVersion 0 0 0 minPrereleases None.
Definition Zero : version := mkVersion 0 0 0 None None.

(** *** The patterns of version.go

    A [vPRPart] is one of [0], [[1-9][0-9]*] and
    [[0-9]*[A-Za-z-]+[0-9A-Za-z-]*]: a segment of [[0-9A-Za-z-]] that is
    [0], or is a number without a leading zero, or has a byte that is not a
    digit. *)
Definition allChars (p : ascii -> bool) (s : string) : bool :=
  (snd (Go.span p s) =? "")%string.

Definition anyChar (p : ascii -> bool) (s : string) : bool :=
  negb (allChars (fun c => negb (p c)) s).

Definition isVPRPart (s : string) : bool :=
  match s with
  | "" => false
  | String c r =>
      allChars Go.isPartChar s &&
      ((s =? "0")%string || (Go.isDigit19 c && allChars Go.isDigit r)
       || anyChar Go.isAlphaHyphen s)
  end.

(** [vPart = [0-9A-Za-z-]+] *)
Definition isVPart (s : string) : bool :=
  match s with
  | "" => false
  | _ => allChars Go.isPartChar s
  end.

(** [\A part(?:\.part)*\z] *)
Definition matchParts (part : string -> bool) (s : string) : bool :=
  forallb part (Go.Split "." s).

Definition vPRPartsPattern : string -> bool := matchParts isVPRPart.
Definition vPartsPattern : string -> bool := matchParts isVPart.

(** [vNR], which is [0] or [[1-9][0-9]*] in a group, at the head of a
    text: the group and the rest. *)
Definition matchNR (s : string) : option (string * string) :=
  match s with
  | String c r =>
      if (c =? "0")%char then Some ("0", r)
      else if Go.isDigit19 c then
             let '(ds, rest) := Go.span Go.isDigit r in Some (String c ds, rest)
           else None
  | "" => None
  end.

(** [(?:-(parts))?(?:\+(parts))?] at the head of a text, where what comes
    next in the pattern cannot start with a byte of a part or a dot: the
    two groups (empty when they do not take part) and the rest. *)
Definition isPartsChar (c : ascii) : bool := Go.isPartChar c || (c =? ".")%char.

Definition matchQualifier (part : string -> bool) (s : string)
  : option (string * string * string) :=
  let afterPre :=
    match s with
    | String "-" r =>
        let '(pre, rest) := Go.span isPartsChar r in
        if matchParts part pre then Some (pre, rest) else None
    | _ => Some ("", s)
    end in
  match afterPre with
  | None => None
  | Some (pre, String "+" r) =>
      let '(bld, rest) := Go.span isPartsChar r in
      if matchParts isVPart bld then Some (pre, bld, rest) else None
  | Some (pre, rest) => Some (pre, "", rest)
  end.

(** [VersionPattern.FindStringSubmatch]: the groups 1 to 5. *)
Definition VersionPattern (s : string) : option (list string) :=
  match matchNR s with
  | Some (g1, String "." r1) =>
      match matchNR r1 with
      | Some (g2, String "." r2) =>
          match matchNR r2 with
          | Some (g3, r3) =>
              match matchQualifier isVPRPart r3 with
              | Some (g4, g5, "") => Some [s; g1; g2; g3; g4; g5]
              | _ => None
              end
          | None => None
          end
      | _ => None
      end
  | _ => None
  end.

(** [rxGroup[i]] *)
Definition group (rxGroup : list string) (i : nat) : string := nth i rxGroup "".

Definition mungePart (part : string) : segment :=
  match Go.ParseInt part with
  | (i, None) => SInt i
  | _ => SStr part
  end.

Definition splitParts (tag str : string) (stringToInt : bool)
  : result (option (list segment)) :=
  if (str =? "")%string then Ok None
  else
    let pattern := if stringToInt then vPRPartsPattern else vPartsPattern in
    if negb (pattern str) then Err (IllegalCharacters tag)
    else
      let parts := Go.Split "." str in
      Ok (Some (map (fun sp => if stringToInt then mungePart sp else SStr sp) parts)).

Definition NewVersion3 (major minor patch : Z) (preRelease build : string)
  : result version :=
  if (major <? 0) || (minor <? 0) || (patch <? 0) then Err NegativeNumbers
  else
    ps <- splitParts "pre-release" preRelease true ;;
    bs <- splitParts "build" build false ;;
    Ok (mkVersion major minor patch ps bs).

Definition NewVersion (major minor patch : Z) : result version :=
  NewVersion3 major minor patch "" "".

Definition NewVersion2 (major minor patch : Z) (preRelease : string) : result version :=
  NewVersion3 major minor patch preRelease "".

(** The errors of [strconv.Atoi] are dropped ([major, _ := ...]). *)
Definition ParseVersion (str : string) : result version :=
  match VersionPattern str with
  | Some group_ =>
      let major := fst (Go.Atoi (group group_ 1)) in
      let minor := fst (Go.Atoi (group group_ 2)) in
      let patch := fst (Go.Atoi (group group_ 3)) in
      NewVersion3 major minor patch (group group_ 4) (group group_ 5)
  | None => Err (NotAVersion str)
  end.

Fixpoint comparePreReleasesLoop (p1Size p2Size : Z) (p1 p2 : list segment) : Z :=
  match p1, p2 with
  | v1 :: r1, v2 :: r2 =>
      match v1, v2 with
      | SInt i1, SInt i2 =>
          let cmp := Go.sub i1 i2 in
          if negb (cmp =? 0) then cmp
          else comparePreReleasesLoop p1Size p2Size r1 r2
      | SInt _, SStr _ => -1
      | SStr _, SInt _ => 1
      | SStr s1, SStr s2 =>
          let cmp := Go.Compare s1 s2 in
          if negb (cmp =? 0) then cmp
          else comparePreReleasesLoop p1Size p2Size r1 r2
      end
  | _, _ => Go.sub p1Size p2Size
  end.

Definition comparePreReleases (p1 p2 : option (list segment)) : Z :=
  match p1, p2 with
  | None, None => 0
  | None, Some _ => 1
  | Some _, None => -1
  | Some l1, Some l2 =>
      comparePreReleasesLoop (Z.of_nat (List.length l1)) (Z.of_nat (List.length l2)) l1 l2
  end.

Definition CompareTo (v o : version) : Z :=
  let cmp := Go.sub (major v) (major o) in
  if cmp =? 0 then
    let cmp := Go.sub (minor v) (minor o) in
    if cmp =? 0 then
      let cmp := Go.sub (patch v) (patch o) in
      if cmp =? 0 then comparePreReleases (preRelease v) (preRelease o)
      else cmp
    else cmp
  else cmp.

Definition segment_eqb (a b : segment) : bool :=
  match a, b with
  | SInt i, SInt j => i =? j
  | SStr s, SStr t => (s =? t)%string
  | _, _ => false
  end.

Fixpoint equalSegmentsLoop (a b : list segment) : bool :=
  match a, b with
  | [], [] => true
  | x :: a', y :: b' => segment_eqb x y && equalSegmentsLoop a' b'
  | _, _ => false
  end.

Definition equalSegments (a b : option (list segment)) : bool :=
  match a, b with
  | None, None => true
  | None, Some _ => false
  | Some _, None => false
  | Some la, Some lb =>
      (List.length la =? List.length lb)%nat && equalSegmentsLoop la lb
  end.

Definition tripletEquals (v ov : version) : bool :=
  (major v =? major ov) && (minor v =? minor ov) && (patch v =? patch ov).

Definition TripletEquals (v other : version) : bool := tripletEquals v other.

Definition Equals (v ov : version) : bool :=
  tripletEquals v ov
  && equalSegments (preRelease v) (preRelease ov)
  && equalSegments (build v) (build ov).

Definition IsStable (v : version) : bool :=
  match preRelease v with
  | None => true
  | Some _ => false
  end.

Definition NextPatch (v : version) : version :=
  mkVersion (major v) (minor v) (Go.add (patch v) 1) None None.

Definition ToStable (v : version) : version :=
  mkVersion (major v) (minor v) (patch v) None (build v).

Definition segmentString (s : segment) : string :=
  match s with
  | SInt i => Go.itoa i
  | SStr t => t
  end.

Fixpoint writePartsRest (parts : list segment) : string :=
  match parts with
  | [] => ""
  | p :: r => "." ++ segmentString p ++ writePartsRest r
  end.

Definition writeParts (parts : list segment) : string :=
  match parts with
  | [] => ""
  | p :: r => segmentString p ++ writePartsRest r
  end.

(** [(v *version) ToString], and [String], which returns what it writes. *)
Definition versionToString (v : version) : string :=
  Go.itoa (major v) ++ "." ++ Go.itoa (minor v) ++ "." ++ Go.itoa (patch v)
  ++ match preRelease v with
     | Some ps => "-" ++ writeParts ps
     | None => ""
     end
  ++ match build v with
     | Some bs => "+" ++ writeParts bs
     | None => ""
     end.

Definition PreRelease (v : version) : string :=
  match preRelease v with
  | None => ""
  | Some ps => writeParts ps
  end.

Definition Build (v : version) : string :=
  match build v with
  | None => ""
  | Some bs => writeParts bs
  end.

(** ** versionrange.go *)

(** The implementations of the interface [abstractRange]: the five
    comparators, which embed [simpleRange], and [startEndRange]. *)
Inductive abstractRange :=
| eqRange (v : version)
| gtRange (v : version)
| gtEqRange (v : version)
| ltRange (v : version)
| ltEqRange (v : version)
| startEndRange (startCompare endCompare : abstractRange).

Record versionRange := mkRange {
  originalString : string;
  ranges : list abstractRange
}.

Definition highestLb : abstractRange := gtRange Max.
Definition lowestLb : abstractRange := gtEqRange Min.
Definition lowestUb : abstractRange := ltRange Min.

Definition MatchAll : versionRange := mkRange "*" [lowestLb].
Definition MatchNone : versionRange := mkRange "<0.0.0" [lowestUb].

(** *** The methods of the bounds

    A method that a comparator does not define is the one of
    [simpleRange]; the comment of each case names the receiver. *)

Definition asLowerBound (r : abstractRange) : abstractRange :=
  match r with
  | startEndRange s _ => s          (* startEndRange *)
  | eqRange _ => r                  (* eqRange *)
  | gtEqRange _ => r                (* gtEqRange *)
  | gtRange _ => r                  (* gtRange *)
  | ltRange _ | ltEqRange _ => highestLb   (* simpleRange *)
  end.

Definition asUpperBound (r : abstractRange) : abstractRange :=
  match r with
  | startEndRange _ e => e          (* startEndRange *)
  | eqRange _ => r                  (* eqRange *)
  | ltEqRange _ => r                (* ltEqRange *)
  | ltRange _ => r                  (* ltRange *)
  | gtRange _ | gtEqRange _ => lowestUb    (* simpleRange *)
  end.

Fixpoint equals (r o : abstractRange) : bool :=
  match r, o with
  | eqRange v, eqRange ov => Equals v ov
  | gtRange v, gtRange ov => Equals v ov
  | gtEqRange v, gtEqRange ov => Equals v ov
  | ltRange v, ltRange ov => Equals v ov
  | ltEqRange v, ltEqRange ov => Equals v ov
  | startEndRange s e, startEndRange os oe => equals s os && equals e oe
  | _, _ => false
  end.

Fixpoint includes (r : abstractRange) (v : version) : bool :=
  match r with
  | eqRange rv => CompareTo rv v =? 0
  | gtEqRange rv => CompareTo rv v <=? 0
  | gtRange rv => CompareTo rv v <? 0
  | ltEqRange rv => CompareTo rv v >=? 0
  | ltRange rv => CompareTo rv v >? 0
  | startEndRange s e => includes s v && includes e v
  end.

Fixpoint isAbove (r : abstractRange) (v : version) : bool :=
  match r with
  | startEndRange s _ => isAbove s v
  | eqRange rv => CompareTo rv v >? 0
  | gtEqRange rv => CompareTo rv v >? 0
  | gtRange rv =>
      let v := if IsStable rv then ToStable v else v in
      CompareTo rv v >=? 0
  | ltRange _ | ltEqRange _ => false       (* simpleRange *)
  end.

Fixpoint isBelow (r : abstractRange) (v : version) : bool :=
  match r with
  | startEndRange _ e => isBelow e v
  | eqRange rv => CompareTo rv v <? 0
  | ltEqRange rv => CompareTo rv v <? 0
  | ltRange rv =>
      let v := if IsStable rv then ToStable v else v in
      CompareTo rv v <=? 0
  | gtRange _ | gtEqRange _ => false       (* simpleRange *)
  end.

Fixpoint isExcludeStart (r : abstractRange) : bool :=
  match r with
  | startEndRange s _ => isExcludeStart s
  | gtRange _ => true
  | eqRange _ | gtEqRange _ | ltRange _ | ltEqRange _ => false   (* simpleRange *)
  end.

(** No comparator defines [isExcludeEnd]: all five take [simpleRange]'s. *)
Fixpoint isExcludeEnd (r : abstractRange) : bool :=
  match r with
  | startEndRange _ e => isExcludeEnd e
  | eqRange _ | gtRange _ | gtEqRange _ | ltRange _ | ltEqRange _ => false
  end.

Fixpoint isLowerBound (r : abstractRange) : bool :=
  match r with
  | startEndRange s _ => isLowerBound s
  | eqRange v => negb (Equals v Min)
  | gtEqRange v => negb (Equals v Min)
  | gtRange _ => true
  | ltRange _ | ltEqRange _ => false       (* simpleRange *)
  end.

Fixpoint isUpperBound (r : abstractRange) : bool :=
  match r with
  | startEndRange _ e => isUpperBound e
  | eqRange v => negb (Equals v Max)
  | ltEqRange v => negb (Equals v Max)
  | ltRange _ => true
  | gtRange _ | gtEqRange _ => false       (* simpleRange *)
  end.

Fixpoint start (r : abstractRange) : version :=
  match r with
  | startEndRange s _ => start s
  | eqRange v | gtEqRange v | gtRange v => v
  | ltRange _ | ltEqRange _ => Min         (* simpleRange *)
  end.

(** The method [end]. *)
Fixpoint end_ (r : abstractRange) : version :=
  match r with
  | startEndRange _ e => end_ e
  | eqRange v | ltEqRange v | ltRange v => v
  | gtRange _ | gtEqRange _ => Max         (* simpleRange *)
  end.

Fixpoint testPrerelease (r : abstractRange) (v : version) : bool :=
  match r with
  | startEndRange s e => testPrerelease s v || testPrerelease e v
  | eqRange rv | gtRange rv | gtEqRange rv | ltRange rv | ltEqRange rv =>
      negb (IsStable rv) && TripletEquals rv v          (* simpleRange *)
  end.

(** The method [ToString] of the bounds.  [eqRange] has none of its own:
    it is the one of the embedded [Version]. *)
Fixpoint boundToString (r : abstractRange) : string :=
  match r with
  | startEndRange s e => boundToString s ++ " " ++ boundToString e
  | eqRange v => versionToString v
  | gtEqRange v => ">=" ++ versionToString v
  | gtRange v => ">" ++ versionToString v
  | ltEqRange v => "<=" ++ versionToString v
  | ltRange v => "<" ++ versionToString v
  end.

(** *** The algebra of bounds *)

Definition isOverlap (ra rb : abstractRange) : bool :=
  let cmp := CompareTo (start ra) (end_ rb) in
  if (cmp <? 0) || ((cmp =? 0) && negb (isExcludeStart ra || isExcludeEnd rb)) then
    let cmp := CompareTo (start rb) (end_ ra) in
    (cmp <? 0) || ((cmp =? 0) && negb (isExcludeStart rb || isExcludeEnd ra))
  else false.

Definition asRestrictedAs (ra vr : abstractRange) : bool :=
  let cmp := CompareTo (start vr) (start ra) in
  if (cmp >? 0) || ((cmp =? 0) && negb (isExcludeStart ra) && isExcludeStart vr)
  then false
  else
    let cmp := CompareTo (end_ vr) (end_ ra) in
    negb ((cmp <? 0) || ((cmp =? 0) && negb (isExcludeEnd ra) && isExcludeEnd vr)).

(** [None] is the nil [abstractRange]. *)
Definition intersection (ra rb : abstractRange) : option abstractRange :=
  let cmp := CompareTo (start ra) (end_ rb) in
  if cmp >? 0 then None
  else if cmp =? 0 then
    if isExcludeStart ra || isExcludeEnd rb then None
    else Some (eqRange (start ra))
  else
    let cmp := CompareTo (start rb) (end_ ra) in
    if cmp >? 0 then None
    else if cmp =? 0 then
      if isExcludeStart rb || isExcludeEnd ra then None
      else Some (eqRange (start rb))
    else
      let cmp := CompareTo (start ra) (start rb) in
      let start :=
        if cmp <? 0 then rb
        else if cmp >? 0 then ra
        else if isExcludeStart ra then ra
        else rb in
      let cmp := CompareTo (end_ ra) (end_ rb) in
      let end' :=
        if cmp >? 0 then rb
        else if cmp <? 0 then ra
        else if isExcludeEnd ra then ra
        else rb in
      if negb (isUpperBound end') then Some start
      else if negb (isLowerBound start) then Some end'
      else Some (startEndRange (asLowerBound start) (asUpperBound end')).

Definition fromTo (ra rb : abstractRange) : abstractRange :=
  let startR := if isExcludeStart ra then gtRange (start ra) else gtEqRange (start ra) in
  let endR := if isExcludeEnd rb then ltRange (end_ rb) else ltEqRange (end_ rb) in
  startEndRange startR endR.

Definition union (ra rb : abstractRange) : option abstractRange :=
  if includes ra (start rb) || includes rb (start ra) then
    let cmp := CompareTo (start ra) (start rb) in
    let '(start', excludeStart) :=
      if cmp <? 0 then (start ra, isExcludeStart ra)
      else if cmp >? 0 then (start rb, isExcludeStart rb)
      else (start ra, isExcludeStart ra && isExcludeStart rb) in
    let cmp := CompareTo (end_ ra) (end_ rb) in
    let '(end', excludeEnd) :=
      if cmp >? 0 then (end_ ra, isExcludeEnd ra)
      else if cmp <? 0 then (end_ rb, isExcludeEnd rb)
      else (end_ ra, isExcludeEnd ra && isExcludeEnd rb) in
    let startR := if excludeStart then gtRange start' else gtEqRange start' in
    let endR := if excludeEnd then ltRange end' else ltEqRange end' in
    Some (startEndRange startR endR)
  else if isExcludeStart ra && isExcludeStart rb
          && (CompareTo (start ra) (start rb) =? 0) then
    Some (fromTo ra rb)
  else if isExcludeEnd ra && negb (isExcludeStart rb)
          && (CompareTo (end_ ra) (start rb) =? 0) then
    Some (fromTo ra rb)
  else if isExcludeEnd rb && negb (isExcludeStart ra)
          && (CompareTo (end_ rb) (start ra) =? 0) then
    Some (fromTo rb ra)
  else if negb (isExcludeEnd ra) && negb (isExcludeStart rb)
          && (CompareTo (NextPatch (end_ ra)) (start rb) =? 0) then
    Some (fromTo ra rb)
  else if negb (isExcludeEnd rb) && negb (isExcludeStart ra)
          && (CompareTo (NextPatch (end_ rb)) (start ra) =? 0) then
    Some (fromTo rb ra)
  else None.

(** *** [newVersionRange]

    The innermost loop, [for _, y := range ranges]: [x] absorbs every [y]
    it can be united with, the others are kept in [unmerged]. *)
Fixpoint mergeInto (x : abstractRange) (ys unmerged : list abstractRange)
  (mergeHappened : bool) : abstractRange * list abstractRange * bool :=
  match ys with
  | [] => (x, unmerged, mergeHappened)
  | y :: ys' =>
      match union x y with
      | None => mergeInto x ys' (unmerged ++ [y])%list mergeHappened
      | Some merged => mergeInto merged ys' unmerged true
      end
  end.

(** The loop [for len(ranges) > 1]: the state is [ranges], [result] and
    [mergeHappened].  Every turn shortens [ranges], so [fuel] turns are
    enough when [fuel] is the length of [ranges] (see [mergePass_spec]). *)
Fixpoint mergePass (fuel : nat) (ranges result : list abstractRange)
  (mergeHappened : bool) : list abstractRange * list abstractRange * bool :=
  match fuel with
  | O => (ranges, result, mergeHappened)
  | S fuel' =>
      if (1 <? List.length ranges)%nat then
        let ln := (List.length ranges - 1)%nat in
        match nth_error ranges ln with
        | None => (ranges, result, mergeHappened)
        | Some x =>
            let ranges := firstn ln ranges in
            let '(x, unmerged, mergeHappened) := mergeInto x ranges [] mergeHappened in
            mergePass fuel' unmerged (x :: result) mergeHappened
        end
      else (ranges, result, mergeHappened)
  end.

(** The loop [for len(ranges) > 1 && mergeHappened]: a turn that is
    followed by another one has merged two bounds, so the length of
    [ranges] is fuel enough (see [normalize_fuel]). *)
Fixpoint normalize (fuel : nat) (ranges : list abstractRange) (mergeHappened : bool)
  : list abstractRange :=
  match fuel with
  | O => ranges
  | S fuel' =>
      if (1 <? List.length ranges)%nat && mergeHappened then
        let '(ranges, result, mergeHappened) :=
          mergePass (List.length ranges) ranges [] false in
        let result :=
          if (0 <? List.length ranges)%nat then (ranges ++ result)%list else result in
        normalize fuel' result mergeHappened
      else ranges
  end.

Definition newVersionRange (vr : string) (ranges : list abstractRange) : versionRange :=
  let ranges := normalize (List.length ranges) ranges true in
  if (List.length ranges =? 0)%nat then MatchNone
  else mkRange vr ranges.

Definition ExactVersionRange (v : version) : versionRange :=
  mkRange "" [eqRange v].

Definition FromVersions (start : version) (excludeStart : bool)
  (end' : version) (excludeEnd : bool) : versionRange :=
  let as_ := if excludeStart then gtRange start else gtEqRange start in
  let ae := if excludeEnd then ltRange end' else ltEqRange end' in
  newVersionRange "" [as_; ae].

(** *** The patterns of versionrange.go

    Every pattern that yields groups is anchored at both ends, and at each
    choice point at most one branch can lead to a match, so the
    leftmost-first match of Go's [regexp] is found by reading the text once
    from the left.  A group that takes no part in the match is the empty
    string, as in [FindStringSubmatch]. *)

(** [xr = (x|X|\*|0|[1-9][0-9]* )] *)
Definition matchXR (s : string) : option (string * string) :=
  match s with
  | String c r =>
      if (c =? "x")%char || (c =? "X")%char || (c =? "*")%char
      then Some (String c "", r)
      else matchNR s
  | "" => None
  end.

(** [part = (?:[0-9A-Za-z-]+)] *)
Definition isPart : string -> bool := isVPart.

(** [partial = xr(?:\.xr(?:\.xr qualifier)?)?]: its five groups and the
    rest of the text.  An optional tail is entered exactly when a dot
    comes next, for nothing that can follow a [partial] starts with a dot. *)
Definition matchPartial (s : string) : option (list string * string) :=
  match matchXR s with
  | Some (g1, String "." r1) =>
      match matchXR r1 with
      | Some (g2, String "." r2) =>
          match matchXR r2 with
          | Some (g3, r3) =>
              match matchQualifier isPart r3 with
              | Some (g4, g5, rest) => Some ([g1; g2; g3; g4; g5], rest)
              | None => None
              end
          | None => None
          end
      | Some (g2, rest) => Some ([g1; g2; ""; ""; ""], rest)
      | None => None
      end
  | Some (g1, rest) => Some ([g1; ""; ""; ""; ""], rest)
  | None => None
  end.

Definition fullPartial (s : string) : option (list string) :=
  match matchPartial s with
  | Some (gs, "") => Some gs
  | _ => None
  end.

(** [[<>=~^]] *)
Definition isOpChar (c : ascii) : bool :=
  (c =? "<")%char || (c =? ">")%char || (c =? "=")%char
  || (c =? "~")%char || (c =? "^")%char.

(** The second byte of [<=], [>=], [~>] and [~=]. *)
Definition isOp2 (c1 c2 : ascii) : bool :=
  ((c1 =? "<")%char && (c2 =? "=")%char)
  || ((c1 =? ">")%char && (c2 =? "=")%char)
  || ((c1 =? "~")%char && (c2 =? ">")%char)
  || ((c1 =? "~")%char && (c2 =? "=")%char).

(** [simplePattern = \A([<>=~^]|<=|>=|~>|~=)?(?:partial)\z]: the
    operator of one byte is tried first, then the ones of two bytes, then
    none. *)
Definition simplePattern (s : string) : option (list string) :=
  match s with
  | String c r =>
      if isOpChar c then
        match fullPartial r with
        | Some gs => Some (s :: String c "" :: gs)
        | None =>
            match r with
            | String c2 r2 =>
                if isOp2 c c2 then
                  match fullPartial r2 with
                  | Some gs => Some (s :: String c (String c2 "") :: gs)
                  | None => None
                  end
                else None
            | "" => None
            end
        end
      else
        match fullPartial s with
        | Some gs => Some (s :: "" :: gs)
        | None => None
        end
  | "" => None
  end.

(** [\s+] at the head of a text: what follows it. *)
Definition skipSpaces1 (s : string) : option string :=
  match s with
  | String c r => if Go.isSpace c then Some (snd (Go.span Go.isSpace r)) else None
  | "" => None
  end.

(** [hyphenPattern = \A(?:partial)\s+-\s+(?:partial)\z] *)
Definition hyphenPattern (s : string) : option (list string) :=
  match matchPartial s with
  | Some (gs1, r1) =>
      match skipSpaces1 r1 with
      | Some (String "-" r2) =>
          match skipSpaces1 r2 with
          | Some r3 =>
              match fullPartial r3 with
              | Some gs2 => Some (s :: gs1 ++ gs2)%list
              | None => None
              end
          | None => None
          end
      | _ => None
      end
  | None => None
  end.

(** [opWsPattern.ReplaceAllString(vr, "$1")] with
    [opWsPattern = ([><=~^])(?:\s+|\s*v)].  A match is an operator byte
    followed by a run of spaces, or else by [v]; the operator byte is
    kept and the search goes on after the match.  The state says what has
    been read of a match. *)
Inductive opWsState :=
| Scanning      (* outside a match *)
| AfterOp       (* the last byte written is an operator byte *)
| InSpaces.     (* inside the [\s+] of a match *)

Fixpoint opWsLoop (st : opWsState) (s : string) : string :=
  match s with
  | "" => ""
  | String c r =>
      let emit := String c (opWsLoop (if isOpChar c then AfterOp else Scanning) r) in
      match st with
      | Scanning => emit
      | AfterOp =>
          if Go.isSpace c then opWsLoop InSpaces r
          else if (c =? "v")%char then opWsLoop Scanning r
          else emit
      | InSpaces =>
          if Go.isSpace c then opWsLoop InSpaces r else emit
      end
  end.

Definition opWsReplaceAll (vr : string) : string := opWsLoop Scanning vr.

(** [orSplit.Split(vr, -1)] with [orSplit = \s*\|\|\s*]: [cur] is the
    piece being read, [pend] a run of spaces that belongs to the next
    separator if two bars follow it and to the piece otherwise; [skipping]
    holds in the spaces after the bars. *)
Fixpoint orSplitLoop (skipping : bool) (cur pend : string) (s : string) : list string :=
  match s with
  | "" => [cur ++ pend]
  | String c r =>
      if Go.isSpace c then
        if skipping then orSplitLoop true cur pend r
        else orSplitLoop false cur (pend ++ String c "") r
      else
        let piece := orSplitLoop false (cur ++ pend ++ String c "") "" r in
        if (c =? "|")%char then
          match r with
          | String c2 r' =>
              if (c2 =? "|")%char then cur :: orSplitLoop true "" "" r'
              else piece
          | "" => piece
          end
        else piece
  end.

Definition orSplit (vr : string) : list string := orSplitLoop false "" "" vr.

(** [simpleSplit.Split(rangeStr, -1)] with [simpleSplit = \s+]. *)
Fixpoint simpleSplitLoop (inSpaces : bool) (cur : string) (s : string) : list string :=
  match s with
  | "" => [cur]
  | String c r =>
      if Go.isSpace c then
        if inSpaces then simpleSplitLoop true cur r
        else cur :: simpleSplitLoop true "" r
      else simpleSplitLoop false (cur ++ String c "") r
  end.

Definition simpleSplit (rangeStr : string) : list string :=
  simpleSplitLoop false "" rangeStr.

(** *** From the groups of a match to a bound *)

Definition xDigit (str : string) : result (Z * bool) :=
  if (str =? "")%string || (str =? "x")%string || (str =? "X")%string
     || (str =? "*")%string
  then Ok (0, false)
  else match Go.ParseInt str with
       | (i, None) => Ok (i, true)
       | _ => Err IllegalTriplet
       end.

Definition createGtEqRange (rxGroup : list string) (startInMatcher : nat)
  : result abstractRange :=
  '(major, ok) <- xDigit (group rxGroup startInMatcher) ;;
  if negb ok then Ok lowestLb
  else
    let startInMatcher := S startInMatcher in
    '(minor, ok) <- xDigit (group rxGroup startInMatcher) ;;
    let minor := if negb ok then 0 else minor in
    let startInMatcher := S startInMatcher in
    '(patch, ok) <- xDigit (group rxGroup startInMatcher) ;;
    let patch := if negb ok then 0 else patch in
    let startInMatcher := S startInMatcher in
    let preRelease := group rxGroup startInMatcher in
    let startInMatcher := S startInMatcher in
    let build := group rxGroup startInMatcher in
    v <- NewVersion3 major minor patch preRelease build ;;
    Ok (gtEqRange v).

Definition createGtRange (rxGroup : list string) (startInMatcher : nat)
  : result abstractRange :=
  '(major, ok) <- xDigit (group rxGroup startInMatcher) ;;
  if negb ok then Ok lowestLb
  else
    let startInMatcher := S startInMatcher in
    '(minor, ok) <- xDigit (group rxGroup startInMatcher) ;;
    if negb ok then Ok (gtEqRange (mkVersion (Go.add major 1) 0 0 None None))
    else
      let startInMatcher := S startInMatcher in
      '(patch, ok) <- xDigit (group rxGroup startInMatcher) ;;
      if negb ok then Ok (gtEqRange (mkVersion major (Go.add minor 1) 0 None None))
      else
        let startInMatcher := S startInMatcher in
        let preRelease := group rxGroup startInMatcher in
        let startInMatcher := S startInMatcher in
        let build := group rxGroup startInMatcher in
        v <- NewVersion3 major minor patch preRelease build ;;
        Ok (gtRange v).

Definition createLtEqRange (rxGroup : list string) (startInMatcher : nat)
  : result abstractRange :=
  '(major, ok) <- xDigit (group rxGroup startInMatcher) ;;
  if negb ok then Ok lowestUb
  else
    let startInMatcher := S startInMatcher in
    '(minor, ok) <- xDigit (group rxGroup startInMatcher) ;;
    if negb ok then Ok (ltRange (mkVersion (Go.add major 1) 0 0 None None))
    else
      let startInMatcher := S startInMatcher in
      '(patch, ok) <- xDigit (group rxGroup startInMatcher) ;;
      if negb ok then Ok (ltRange (mkVersion major (Go.add minor 1) 0 None None))
      else
        let startInMatcher := S startInMatcher in
        let preRelease := group rxGroup startInMatcher in
        let startInMatcher := S startInMatcher in
        let build := group rxGroup startInMatcher in
        v <- NewVersion3 major minor patch preRelease build ;;
        Ok (ltEqRange v).

Definition createLtRange (rxGroup : list string) (startInMatcher : nat)
  : result abstractRange :=
  '(major, ok) <- xDigit (group rxGroup startInMatcher) ;;
  if negb ok then Ok lowestUb
  else
    let startInMatcher := S startInMatcher in
    '(minor, ok) <- xDigit (group rxGroup startInMatcher) ;;
    let minor := if negb ok then 0 else minor in
    let startInMatcher := S startInMatcher in
    '(patch, ok) <- xDigit (group rxGroup startInMatcher) ;;
    let patch := if negb ok then 0 else patch in
    let startInMatcher := S startInMatcher in
    let preRelease := group rxGroup startInMatcher in
    let startInMatcher := S startInMatcher in
    let build := group rxGroup startInMatcher in
    v <- NewVersion3 major minor patch preRelease build ;;
    Ok (ltRange v).

Definition allowPatchUpdates (rxGroup : list string) (startInMatcher : nat)
  (tildeOrCaret : bool) : result abstractRange :=
  '(major, ok) <- xDigit (group rxGroup startInMatcher) ;;
  if negb ok then Ok lowestLb
  else
    let startInMatcher := S startInMatcher in
    '(minor, ok) <- xDigit (group rxGroup startInMatcher) ;;
    if negb ok then
      Ok (startEndRange
            (gtEqRange (mkVersion major 0 0 None None))
            (ltRange (mkVersion (Go.add major 1) 0 0 None None)))
    else
      let startInMatcher := S startInMatcher in
      '(patch, ok) <- xDigit (group rxGroup startInMatcher) ;;
      if negb ok then
        Ok (startEndRange
              (gtEqRange (mkVersion major minor 0 None None))
              (ltRange (mkVersion major (Go.add minor 1) 0 None None)))
      else
        let startInMatcher := S startInMatcher in
        let preRelease := group rxGroup startInMatcher in
        let startInMatcher := S startInMatcher in
        let build := group rxGroup startInMatcher in
        v <- NewVersion3 major minor patch preRelease build ;;
        if tildeOrCaret then
          Ok (startEndRange
                (gtEqRange v)
                (ltRange (mkVersion major (Go.add minor 1) 0 None None)))
        else Ok (eqRange v).

(** The error of the first [xDigit] is overwritten by the second call
    before it is looked at; a failed [xDigit] returns [(0, false)]. *)
Definition allowMinorUpdates (rxGroup : list string) (major : Z) (startInMatcher : nat)
  : result abstractRange :=
  let '(minor, ok) :=
    match xDigit (group rxGroup startInMatcher) with
    | Ok p => p
    | Err _ => (0, false)
    end in
  let minor := if negb ok then 0 else minor in
  let startInMatcher := S startInMatcher in
  '(patch, ok) <- xDigit (group rxGroup startInMatcher) ;;
  let patch := if negb ok then 0 else patch in
  let startInMatcher := S startInMatcher in
  let preRelease := group rxGroup startInMatcher in
  let startInMatcher := S startInMatcher in
  let build := group rxGroup startInMatcher in
  v <- NewVersion3 major minor patch preRelease build ;;
  Ok (startEndRange
        (gtEqRange v)
        (ltRange (mkVersion (Go.add major 1) 0 0 None None))).

Definition createTildeRange (rxGroup : list string) (startInMatcher : nat)
  : result abstractRange :=
  allowPatchUpdates rxGroup startInMatcher true.

Definition createCaretRange (rxGroup : list string) (startInMatcher : nat)
  : result abstractRange :=
  '(major, ok) <- xDigit (group rxGroup startInMatcher) ;;
  if negb ok then Ok lowestLb
  else if major =? 0 then allowPatchUpdates rxGroup startInMatcher true
  else
    let startInMatcher := S startInMatcher in
    allowMinorUpdates rxGroup major startInMatcher.

Definition createXRange (rxGroup : list string) (startInMatcher : nat)
  : result abstractRange :=
  allowPatchUpdates rxGroup startInMatcher false.

(** *** [ParseVersionRange] *)

(** The [switch m[1]] on the operator. *)
Definition createRange (m : list string) : result abstractRange :=
  let op := group m 1 in
  if (op =? "~")%string || (op =? "~>")%string then createTildeRange m 2
  else if (op =? "^")%string then createCaretRange m 2
  else if (op =? ">")%string then createGtRange m 2
  else if (op =? ">=")%string then createGtEqRange m 2
  else if (op =? "<")%string then createLtRange m 2
  else if (op =? "<=")%string then createLtEqRange m 2
  else createXRange m 2.

(** The loop over the terms of one alternative; [simpleRange] is [None]
    while it is nil. *)
Fixpoint parseSimples (simples : list string) (simpleRange : option abstractRange)
  : result (option abstractRange) :=
  match simples with
  | [] => Ok simpleRange
  | simple :: rest =>
      match simplePattern simple with
      | None => Err (NotARange simple)
      | Some m =>
          rng <- createRange m ;;
          match simpleRange with
          | None => parseSimples rest (Some rng)
          | Some sr => parseSimples rest (intersection sr rng)
          end
      end
  end.

(** The loop over the alternatives.  A nil result of [intersection] for a
    hyphen expression would be stored in [ranges] as it is; it is reported
    here as [NilBound], and never occurs ([parseAlternatives_not_nil]). *)
Fixpoint parseAlternatives (rangeStrings : list string) (ranges : list abstractRange)
  : result (list abstractRange) :=
  match rangeStrings with
  | [] => Ok ranges
  | rangeStr :: rest =>
      if (rangeStr =? "")%string then parseAlternatives rest (ranges ++ [lowestLb])%list
      else
        match hyphenPattern rangeStr with
        | Some m =>
            e1 <- createGtEqRange m 1 ;;
            e2 <- createGtEqRange m 6 ;;
            match intersection e1 e2 with
            | Some b => parseAlternatives rest (ranges ++ [b])%list
            | None => Err NilBound
            end
        | None =>
            simpleRange <- parseSimples (simpleSplit rangeStr) None ;;
            match simpleRange with
            | Some sr => parseAlternatives rest (ranges ++ [sr])%list
            | None => parseAlternatives rest ranges
            end
        end
  end.

(** [Ok None] is the result [nil, nil] for the empty text. *)
Definition ParseVersionRange (vr : string) : result (option versionRange) :=
  if (vr =? "")%string then Ok None
  else
    let vr := opWsReplaceAll vr in
    let rangeStrings := orSplit vr in
    if (List.length rangeStrings =? 0)%nat then Err (NotARange vr)
    else
      ranges <- parseAlternatives rangeStrings [] ;;
      Ok (Some (newVersionRange vr ranges)).

(** *** The methods of [versionRange] *)

Definition EndVersion (r : versionRange) : option version :=
  match ranges r with
  | [b] => Some (end_ b)
  | _ => None
  end.

Definition StartVersion (r : versionRange) : option version :=
  match ranges r with
  | [b] => Some (start b)
  | _ => None
  end.

(** The loop of [Equals], entered when the two lengths are equal. *)
Fixpoint equalsLoop (rs os : list abstractRange) : bool :=
  match rs, os with
  | [], _ => true
  | ar :: rs', o :: os' => if negb (equals ar o) then false else equalsLoop rs' os'
  | _ :: _, [] => false
  end.

(** [(r *versionRange) Equals] *)
Definition RangeEquals (r other : versionRange) : bool :=
  if negb (List.length (ranges r) =? List.length (ranges other))%nat then false
  else equalsLoop (ranges r) (ranges other).

(** [v] is [None] for the nil [Version]. *)
Definition Includes (r : versionRange) (v : option version) : bool :=
  match v with
  | Some v =>
      existsb (fun ar => includes ar v && (IsStable v || testPrerelease ar v)) (ranges r)
  | None => false
  end.

Definition Intersection (r : versionRange) (other : option versionRange)
  : option versionRange :=
  match other with
  | Some or =>
      let iscs :=
        flat_map (fun ar =>
          flat_map (fun ao =>
            match intersection ar ao with
            | Some is_ => [is_]
            | None => []
            end) (ranges or)) (ranges r) in
      if (0 <? List.length iscs)%nat then Some (newVersionRange "" iscs)
      else None
  | None => None
  end.

Definition IsAsRestrictiveAs (r other : versionRange) : bool :=
  forallb (fun ar =>
    existsb (fun ao =>
      match intersection ar ao with
      | Some _ => asRestrictedAs ar ao
      | None => false
      end) (ranges other)) (ranges r).

Definition IsExcludeEnd (r : versionRange) : bool :=
  match ranges r with
  | [b] => isExcludeEnd b
  | _ => false
  end.

Definition IsExcludeStart (r : versionRange) : bool :=
  match ranges r with
  | [b] => isExcludeStart b
  | _ => false
  end.

Definition Merge (r or : versionRange) : versionRange :=
  newVersionRange "" (ranges r ++ ranges or)%list.

Fixpoint normalizedRest (rs : list abstractRange) : string :=
  match rs with
  | [] => ""
  | b :: rs' => " || " ++ boundToString b ++ normalizedRest rs'
  end.

(** [ToNormalizedString], and [NormalizedString], which returns what it
    writes.  [r.ranges[0]] is read without a test: every range of the
    package has an alternative. *)
Definition NormalizedString (r : versionRange) : string :=
  match ranges r with
  | [] => ""
  | b :: rs => boundToString b ++ normalizedRest rs
  end.

Definition ToString (r : versionRange) : string :=
  if (originalString r =? "")%string then NormalizedString r
  else originalString r.

(** [(r *versionRange) String] *)
Definition String_ (r : versionRange) : string := ToString r.

(** ** Notions used in the statements *)

(** The versions that the comparators of a bound carry. *)
Fixpoint endpoints (r : abstractRange) : list version :=
  match r with
  | eqRange v | gtRange v | gtEqRange v | ltRange v | ltEqRange v => [v]
  | startEndRange s e => (endpoints s ++ endpoints e)%list
  end.

(** No operator byte of the text is followed by a space or by [v]:
    [opWsPattern] has no match. *)
Fixpoint opWsFree (s : string) : bool :=
  match s with
  | "" => true
  | String c r =>
      (if isOpChar c then
         match r with
         | String d _ => negb (Go.isSpace d || (d =? "v")%char)
         | "" => true
         end
       else true) && opWsFree r
  end.


(** The operand of an intersection that gives the lower edge: the one
    with the larger start, and on equal starts the first if it excludes
    its start. *)
Definition lowerSide (ra rb : abstractRange) : abstractRange :=
  match CompareTo (start ra) (start rb) ?= 0 with
  | Lt => rb
  | Gt => ra
  | Eq => if isExcludeStart ra then ra else rb
  end.

(** The operand that gives the upper edge: the one with the smaller end,
    and on equal ends the first if it excludes its end. *)
Definition upperSide (ra rb : abstractRange) : abstractRange :=
  match CompareTo (end_ ra) (end_ rb) ?= 0 with
  | Gt => rb
  | Lt => ra
  | Eq => if isExcludeEnd ra then ra else rb
  end.

(** The two edges put together; one of them alone when the other is not
    a bound. *)
Definition joinEdges (lo hi : abstractRange) : abstractRange :=
  if negb (isUpperBound hi) then lo
  else if negb (isLowerBound lo) then hi
  else startEndRange (asLowerBound lo) (asUpperBound hi).

(** The adjacency tests of [union], in its order, on what the methods
    [isExcludeStart] and [isExcludeEnd] answer. *)
Definition sameOpenStart (ra rb : abstractRange) : Prop :=
  isExcludeStart ra = true /\ isExcludeStart rb = true /\
  CompareTo (start ra) (start rb) = 0.

Definition openEndMeetsStart (ra rb : abstractRange) : Prop :=
  isExcludeEnd ra = true /\ isExcludeStart rb = false /\
  CompareTo (end_ ra) (start rb) = 0.

Definition nextPatchMeetsStart (ra rb : abstractRange) : Prop :=
  isExcludeEnd ra = false /\ isExcludeStart rb = false /\
  CompareTo (NextPatch (end_ ra)) (start rb) = 0.

Definition adjacent (ra rb : abstractRange) : Prop :=
  sameOpenStart ra rb \/
  openEndMeetsStart ra rb \/ openEndMeetsStart rb ra \/
  nextPatchMeetsStart ra rb \/ nextPatchMeetsStart rb ra.

(** A version whose three numbers are values a parsed text can give. *)
Definition in_range (v : version) : Prop :=
  0 <= major v <= Go.MaxInt64 /\
  0 <= minor v <= Go.MaxInt64 /\
  0 <= patch v <= Go.MaxInt64.

(** The stable version [a.b.c]. *)
Definition v3 (a b c : Z) : version := mkVersion a b c None None.

(** No alternative can be united with one that stands before it: the
    test that [newVersionRange] makes, [union x y] with [y] before [x]. *)
Definition settled (rs : list abstractRange) : Prop :=
  ForallOrdPairs (fun y x => union x y = None) rs.

(** A segment that is a text. *)
Definition seg_is_text (s : segment) : Prop :=
  match s with
  | SStr _ => True
  | SInt _ => False
  end.

(** Every byte of a text satisfies [p]. *)
Fixpoint everyChar (p : ascii -> bool) (s : string) : bool :=
  match s with
  | "" => true
  | String c r => p c && everyChar p r
  end.

(** A byte that is not a space, a bar or a [v]: one that no separator
    takes and that ends no match of [opWsPattern]. *)
Definition termChar (c : ascii) : bool :=
  negb (Go.isSpace c) && negb (c =? "|")%char && negb (c =? "v")%char.

(** One of the five comparators on the version [v]. *)
Definition comparator (b : abstractRange) (v : version) : Prop :=
  b = eqRange v \/ b = gtRange v \/ b = gtEqRange v \/
  b = ltRange v \/ b = ltEqRange v.

(** A segment whose number, if it is one, is an [int]; a list of segments
    that a slice can hold. *)
Definition seg_in_int (s : segment) : Prop :=
  match s with
  | SInt i => Go.MinInt64 <= i <= Go.MaxInt64
  | SStr _ => True
  end.

Definition seg_nonneg (s : segment) : Prop :=
  match s with
  | SInt i => 0 <= i <= Go.MaxInt64
  | SStr _ => True
  end.

Definition segs (ok : segment -> Prop) (p : option (list segment)) : Prop :=
  match p with
  | Some l => Z.of_nat (List.length l) <= Go.MaxInt64 /\ Forall ok l
  | None => True
  end.

(** A version with numbers that a parsed text can give and [int]
    numbers in its pre-release; [plain] when those are not negative. *)
Definition well_formed (v : version) : Prop :=
  in_range v /\ segs seg_in_int (preRelease v).

Definition plain (v : version) : Prop :=
  in_range v /\ segs seg_nonneg (preRelease v).


(** The versions [1.2.3-rc.1+a], [1.2.3-rc.1+b] and [1.2.3-rc.2] of the
    worked instances. *)
Definition v_rc1_a : version :=
  mkVersion 1 2 3 (Some [SStr "rc"; SInt 1]) (Some [SStr "a"]).
Definition v_rc1_b : version :=
  mkVersion 1 2 3 (Some [SStr "rc"; SInt 1]) (Some [SStr "b"]).
Definition v_rc2 : version :=
  mkVersion 1 2 3 (Some [SStr "rc"; SInt 2]) None.

(** * Properties *)

(** Closed goals are settled by evaluation, one conjunct after the other
    so that a value found for an earlier one is known in the later ones. *)
Ltac evaluate := vm_compute; reflexivity.
Ltac evaluate_all :=
  repeat (match goal with |- _ /\ _ => split; [evaluate|] end); evaluate.
Ltac evaluate_equations :=
  repeat (match goal with |- (_ = _) /\ _ => split; [evaluate|] end).

(** ** The examples of the package's tests that the code passes *)

Example ExampleParseVersionRange :
  exists rng, ParseVersionRange "1.x" = Ok (Some rng) /\
              String_ rng = "1.x" /\
              NormalizedString rng = ">=1.0.0 <2.0.0".
Proof. eexists. evaluate_all. Qed.

Example ExampleParseVersion :
  exists v, ParseVersion "1.0.0" = Ok v /\ versionToString v = "1.0.0".
Proof. eexists. evaluate_all. Qed.

Example ExampleVersion_NextPatch :
  exists v, ParseVersion "1.0.0" = Ok v /\
            versionToString v = "1.0.0" /\
            versionToString (NextPatch v) = "1.0.1".
Proof. eexists. evaluate_all. Qed.

Example ExampleVersion_ToStable :
  exists v, ParseVersion "1.0.0-rc1" = Ok v /\
            versionToString v = "1.0.0-rc1" /\
            versionToString (ToStable v) = "1.0.0".
Proof. eexists. evaluate_all. Qed.

(** ** How the patterns read some texts *)

Example simplePattern_groups :
  simplePattern ">=1.2.3-rc.1+b-7" = Some [">=1.2.3-rc.1+b-7"; ">="; "1"; "2"; "3"; "rc.1"; "b-7"] /\
  simplePattern "~=1.x" = Some ["~=1.x"; "~="; "1"; "x"; ""; ""; ""] /\
  simplePattern "*" = Some ["*"; ""; "*"; ""; ""; ""; ""] /\
  simplePattern "=>1.2" = None /\
  simplePattern "1.02.3" = None /\
  simplePattern "1.2-rc1" = None /\
  simplePattern "1.2." = None.
Proof. evaluate_all. Qed.

Example hyphenPattern_groups :
  hyphenPattern "1.2.3-a - 2.x"
  = Some ["1.2.3-a - 2.x"; "1"; "2"; "3"; "a"; ""; "2"; "x"; ""; ""; ""] /\
  hyphenPattern "1.2.3 -2.0.0" = None /\
  hyphenPattern "1.2.3-2.0.0" = None.
Proof. evaluate_all. Qed.

Example VersionPattern_groups :
  VersionPattern "1.0.0-rc1.0+001" = Some ["1.0.0-rc1.0+001"; "1"; "0"; "0"; "rc1.0"; "001"] /\
  VersionPattern "1.0.0-01" = None /\
  VersionPattern "1.0" = None /\
  VersionPattern "1.0.0-" = None.
Proof. evaluate_all. Qed.

Example opWsReplaceAll_texts :
  opWsReplaceAll ">=  1.2.3 ~>v2" = ">=1.2.3 ~>2" /\
  opWsReplaceAll "> v1" = ">v1" /\
  opWsReplaceAll "1.0.0 - 2.0.0" = "1.0.0 - 2.0.0".
Proof. evaluate_all. Qed.

Example orSplit_pieces :
  orSplit "1.x || 2.x" = ["1.x"; "2.x"] /\
  orSplit "1.x||" = ["1.x"; ""] /\
  orSplit "1.x | 2.x" = ["1.x | 2.x"] /\
  orSplit "a  b ||c" = ["a  b"; "c"].
Proof. evaluate_all. Qed.

Example simpleSplit_pieces :
  simpleSplit ">1.0.0  <2.0.0" = [">1.0.0"; "<2.0.0"] /\
  simpleSplit " 1.0.0" = [""; "1.0.0"] /\
  simpleSplit "1.0.0 " = ["1.0.0"; ""].
Proof. evaluate_all. Qed.

(** ** The loops of [newVersionRange] end by their own conditions *)

Section Normalizer.

Lemma mergeInto_length (ys : list abstractRange) :
  forall x unmerged mh x' unmerged' mh',
    mergeInto x ys unmerged mh = (x', unmerged', mh') ->
    (List.length unmerged' <= List.length unmerged + List.length ys)%nat /\
    (mh' = true ->
     mh = true \/
     (List.length unmerged' < List.length unmerged + List.length ys)%nat).
Proof.
  induction ys as [|y ys IH]; simpl; intros x un mh x' un' mh' H.
  - injection H as <- <- <-. split; [lia | auto].
  - destruct (union x y) as [merged|].
    + apply IH in H as [H1 H2]. split; [lia|]. intros _. right. lia.
    + apply IH in H as [H1 H2]. rewrite length_app in H1, H2. simpl in *.
      split; [lia|]. intros E. destruct (H2 E); [auto | right; lia].
Qed.

Lemma mergePass_spec (fuel : nat) :
  forall ranges result mh ranges' result' mh',
    (List.length ranges <= fuel)%nat ->
    mergePass fuel ranges result mh = (ranges', result', mh') ->
    (List.length ranges' <= 1)%nat /\
    (List.length ranges' + List.length result'
     <= List.length ranges + List.length result)%nat /\
    (mh' = true ->
     mh = true \/
     (List.length ranges' + List.length result'
      < List.length ranges + List.length result)%nat) /\
    ((1 < List.length ranges)%nat \/ result <> [] -> result' <> []).
Proof.
  induction fuel as [|fuel IH]; intros rs res mh rs' res' mh' Hlen H.
  - simpl in H. injection H as <- <- <-.
    destruct rs; simpl in *; [|lia].
    repeat split; try lia; auto. intros [C|C]; [lia | assumption].
  - simpl in H. destruct (Nat.ltb_spec 1 (List.length rs)) as [Hgt|Hle].
    + destruct (nth_error rs (List.length rs - 1)) as [x|] eqn:Hx.
      2:{ apply nth_error_None in Hx. lia. }
      destruct (mergeInto x (firstn (List.length rs - 1) rs) [] mh)
        as [[x1 un] mh1] eqn:Hm.
      apply mergeInto_length in Hm as [Hm1 Hm2].
      rewrite length_firstn in Hm1, Hm2. simpl in Hm1, Hm2.
      apply IH in H; [|lia].
      destruct H as (H1 & H2 & H3 & H4). simpl in H2, H3.
      repeat split; try lia.
      * intros E. destruct (H3 E) as [E1|E1]; [|right; lia].
        destruct (Hm2 E1); [auto | right; lia].
      * intros _. apply H4. right. discriminate.
    + injection H as <- <- <-.
      repeat split; try lia; auto. intros [C|C]; [lia | assumption].
Qed.

Lemma normalize_false (fuel : nat) (ranges : list abstractRange) :
  normalize fuel ranges false = ranges.
Proof. destruct fuel; simpl; [|rewrite andb_false_r]; reflexivity. Qed.

(** One more unit of fuel changes nothing once the fuel is the length
    of the list: the loop is left because its condition fails. *)
Lemma normalize_step (fuel : nat) :
  forall ranges mh,
    (List.length ranges <= fuel)%nat ->
    normalize (S fuel) ranges mh = normalize fuel ranges mh.
Proof.
  induction fuel as [|fuel IH]; intros rs mh Hlen.
  - destruct rs; simpl in *; [reflexivity | lia].
  - change (normalize (S (S fuel)) rs mh) with
      (if (1 <? List.length rs)%nat && mh then
         let '(ranges, result, mergeHappened) :=
           mergePass (List.length rs) rs [] false in
         let result :=
           if (0 <? List.length ranges)%nat then (ranges ++ result)%list else result in
         normalize (S fuel) result mergeHappened
       else rs).
    change (normalize (S fuel) rs mh) with
      (if (1 <? List.length rs)%nat && mh then
         let '(ranges, result, mergeHappened) :=
           mergePass (List.length rs) rs [] false in
         let result :=
           if (0 <? List.length ranges)%nat then (ranges ++ result)%list else result in
         normalize fuel result mergeHappened
       else rs).
    destruct ((1 <? List.length rs)%nat && mh); [|reflexivity].
    destruct (mergePass (List.length rs) rs [] false) as [[rs' res'] mh'] eqn:Hp.
    apply mergePass_spec in Hp as (H1 & H2 & H3 & _); [|lia].
    destruct mh'; [|now rewrite !normalize_false].
    apply IH. destruct (H3 eq_refl) as [C|Hlt]; [discriminate|].
    simpl in Hlt.
    destruct (0 <? List.length rs')%nat; rewrite ?length_app; lia.
Qed.

Lemma normalize_fuel (k : nat) (ranges : list abstractRange) (mh : bool) :
  normalize (List.length ranges + k) ranges mh
  = normalize (List.length ranges) ranges mh.
Proof.
  induction k as [|k IH].
  - now rewrite Nat.add_0_r.
  - rewrite Nat.add_succ_r, normalize_step; [assumption | lia].
Qed.

Lemma normalize_nonempty (fuel : nat) :
  forall ranges mh, ranges <> [] -> normalize fuel ranges mh <> [].
Proof.
  induction fuel as [|fuel IH]; intros rs mh Hne; simpl; [assumption|].
  destruct (Nat.ltb_spec 1 (List.length rs)) as [Hgt|Hle]; simpl; [|assumption].
  destruct mh; [|assumption].
  destruct (mergePass (List.length rs) rs [] false) as [[rs' res'] mh'] eqn:Hp.
  apply mergePass_spec in Hp as (_ & _ & _ & H4); [|lia].
  apply IH. specialize (H4 (or_introl Hgt)).
  destruct (0 <? List.length rs')%nat; [|assumption].
  destruct rs'; simpl; [assumption | discriminate].
Qed.

Lemma newVersionRange_nonempty (vr : string) (rs : list abstractRange) :
  rs <> [] ->
  exists rs', rs' <> [] /\ newVersionRange vr rs = mkRange vr rs'.
Proof.
  intros Hne. unfold newVersionRange.
  pose proof (normalize_nonempty (List.length rs) rs true Hne) as H.
  destruct (normalize (List.length rs) rs true) as [|b rs']; [congruence|].
  exists (b :: rs'). split; [discriminate | reflexivity].
Qed.

Lemma newVersionRange_nil (vr : string) : newVersionRange vr [] = MatchNone.
Proof. reflexivity. Qed.

End Normalizer.

(** ** Equality of versions and bounds is structural *)

Section StructuralEquality.

Lemma segment_eqb_eq (a b : segment) : segment_eqb a b = true <-> a = b.
Proof.
  destruct a as [i|s], b as [j|t]; simpl; split; intros H;
    try discriminate; try (inversion H; subst).
  - apply Z.eqb_eq in H. now subst.
  - apply Z.eqb_refl.
  - apply String.eqb_eq in H. now subst.
  - apply String.eqb_refl.
Qed.

Lemma equalSegmentsLoop_eq (a b : list segment) :
  equalSegmentsLoop a b = true <-> a = b.
Proof.
  revert b. induction a as [|x a IH]; intros [|y b]; simpl; split; intros H;
    try discriminate; try reflexivity.
  - apply andb_true_iff in H as [Hx Hr].
    apply segment_eqb_eq in Hx. apply IH in Hr. now subst.
  - inversion H; subst. apply andb_true_iff. split.
    + now apply segment_eqb_eq.
    + now apply IH.
Qed.

Lemma equalSegments_eq (a b : option (list segment)) :
  equalSegments a b = true <-> a = b.
Proof.
  destruct a as [la|], b as [lb|]; simpl; split; intros H;
    try discriminate; try reflexivity.
  - apply andb_true_iff in H as [_ H].
    apply equalSegmentsLoop_eq in H. now subst.
  - inversion H; subst. apply andb_true_iff. split.
    + apply Nat.eqb_refl.
    + now apply equalSegmentsLoop_eq.
Qed.

Lemma tripletEquals_spec (v o : version) :
  tripletEquals v o = true <->
  major v = major o /\ minor v = minor o /\ patch v = patch o.
Proof.
  unfold tripletEquals. rewrite !andb_true_iff, !Z.eqb_eq. tauto.
Qed.

Lemma Equals_eq (v o : version) : Equals v o = true <-> v = o.
Proof.
  unfold Equals.
  rewrite !andb_true_iff, tripletEquals_spec, !equalSegments_eq.
  destruct v, o; simpl. split.
  - intros [[(-> & -> & ->) ->] ->]. reflexivity.
  - intros H. inversion H. auto.
Qed.

Lemma equals_eq (r o : abstractRange) : equals r o = true <-> r = o.
Proof.
  revert o. induction r as [v|v|v|v|v|s IHs e IHe]; intros [w|w|w|w|w|s' e'];
    simpl; try (split; intros H; discriminate);
    try (rewrite Equals_eq; split; intros H; [now subst | now inversion H]).
  rewrite andb_true_iff, IHs, IHe. split.
  - intros [-> ->]. reflexivity.
  - intros H. inversion H. auto.
Qed.

Lemma equalsLoop_eq (rs os : list abstractRange) :
  List.length rs = List.length os ->
  (equalsLoop rs os = true <-> rs = os).
Proof.
  revert os. induction rs as [|a rs IH]; intros [|b os] Hlen;
    simpl in *; try discriminate.
  - tauto.
  - injection Hlen as Hlen.
    destruct (equals a b) eqn:Hab; simpl.
    + apply equals_eq in Hab. subst b. rewrite (IH os Hlen). split.
      * now intros ->.
      * intros H. now inversion H.
    + split; [discriminate|]. intros H. inversion H; subst.
      assert (equals b b = true) by now apply equals_eq.
      congruence.
Qed.

Lemma RangeEquals_eq (r o : versionRange) :
  RangeEquals r o = true <-> ranges r = ranges o.
Proof.
  unfold RangeEquals.
  destruct (Nat.eqb_spec (List.length (ranges r)) (List.length (ranges o))) as [Hlen|Hlen];
    simpl.
  - now apply equalsLoop_eq.
  - split; [discriminate|]. intros H. now rewrite H in Hlen.
Qed.

End StructuralEquality.

(** ** Inclusion and the visibility of pre-releases *)

Lemma IsStable_false (v : version) : IsStable v = false <-> preRelease v <> None.
Proof.
  unfold IsStable. destruct (preRelease v); split; intros H; congruence.
Qed.

Lemma testPrerelease_spec (ar : abstractRange) (v : version) :
  testPrerelease ar v = true <->
  exists e, In e (endpoints ar) /\ tripletEquals e v = true /\ IsStable e = false.
Proof.
  induction ar as [w|w|w|w|w|s IHs e IHe]; simpl;
    try (unfold TripletEquals; rewrite andb_true_iff, negb_true_iff; split;
         [ intros [Hs Ht]; exists w; auto
         | intros (e & [<-|[]] & Ht & Hs); auto ]).
  rewrite orb_true_iff, IHs, IHe. split.
  - intros [(x & Hin & H)|(x & Hin & H)]; exists x; rewrite in_app_iff; auto.
  - intros (x & Hin & H). apply in_app_iff in Hin as [Hin|Hin]; [left|right]; eauto.
Qed.

(** C5. [Includes] holds of a version exactly when some alternative
    includes it and the version is stable or passes the alternative's
    pre-release test; the pre-release test of a bound holds exactly when an
    endpoint of one of its comparators has the triplet of the version and
    is itself a pre-release. *)
Theorem C5_Includes_visibility :
  (forall (r : versionRange) (v : version),
      Includes r (Some v) = true <->
      exists ar, In ar (ranges r) /\ includes ar v = true /\
                 (IsStable v = true \/ testPrerelease ar v = true)) /\
  (forall (ar : abstractRange) (v : version),
      testPrerelease ar v = true <->
      exists e, In e (endpoints ar) /\
                (major e = major v /\ minor e = minor v /\ patch e = patch v) /\
                preRelease e <> None).
Proof.
  split.
  - intros r v. unfold Includes. rewrite existsb_exists. split.
    + intros (ar & Hin & H). apply andb_true_iff in H as [Hi Hv].
      apply orb_true_iff in Hv. eauto.
    + intros (ar & Hin & Hi & Hv). exists ar. split; [assumption|].
      apply andb_true_iff. split; [assumption|]. now apply orb_true_iff.
  - intros ar v. rewrite testPrerelease_spec. split.
    + intros (e & Hin & Ht & Hs). exists e.
      apply tripletEquals_spec in Ht. apply IsStable_false in Hs. auto.
    + intros (e & Hin & Ht & Hs). exists e.
      apply tripletEquals_spec in Ht. apply IsStable_false in Hs. auto.
Qed.

(** The pre-release 1.2.3-rc2 is seen through [>=1.2.3-rc1 <2.0.0]. *)
Lemma C5_Includes_visibility_witness :
  exists r v,
    ParseVersionRange ">=1.2.3-rc1 <2.0.0" = Ok (Some r) /\
    ParseVersion "1.2.3-rc2" = Ok v /\
    Includes r (Some v) = true /\
    exists ar, In ar (ranges r) /\ includes ar v = true /\
               (IsStable v = true \/ testPrerelease ar v = true).
Proof.
  eexists. eexists.
  split; [evaluate|]. split; [evaluate|]. split; [evaluate|].
  apply (proj1 C5_Includes_visibility). evaluate.
Defined.

(** ** Equality of ranges *)

Lemma Includes_swap (o1 o2 : string) (a b : abstractRange) (v : option version) :
  Includes (mkRange o1 [a; b]) v = Includes (mkRange o2 [b; a]) v.
Proof.
  destruct v as [v|]; simpl; [|reflexivity].
  rewrite !orb_false_r. apply orb_comm.
Qed.

Lemma Includes_twice (o1 o2 : string) (w : version) (v : option version) :
  Includes (mkRange o1 [eqRange w]) v =
  Includes (mkRange o2 [startEndRange (eqRange w) (eqRange w)]) v.
Proof.
  destruct v as [v|]; simpl; [|reflexivity].
  now rewrite andb_diag, orb_diag.
Qed.

(** C10. [Equals] on ranges is structural: it holds exactly when the two
    lists of alternatives are the same list of bounds (the same variants,
    in the same order, on equal versions).  Two ranges that include the
    same versions are unequal when the order of their alternatives
    differs, or the shape of a bound does. *)
Theorem C10_Equals_structural :
  (forall r o : versionRange, RangeEquals r o = true <-> ranges r = ranges o) /\
  (forall a b : abstractRange, equals a b = true <-> a = b) /\
  (forall v w : version, Equals v w = true <-> v = w) /\
  (exists r o,
      ParseVersionRange "1.0.0 || 2.0.0" = Ok (Some r) /\
      ParseVersionRange "2.0.0 || 1.0.0" = Ok (Some o) /\
      (forall v, Includes r v = Includes o v) /\
      RangeEquals r o = false) /\
  (exists r o,
      ParseVersionRange "1.0.0" = Ok (Some r) /\
      ParseVersionRange "1.0.0 <=2.0.0" = Ok (Some o) /\
      (forall v, Includes r v = Includes o v) /\
      RangeEquals r o = false).
Proof.
  split; [exact RangeEquals_eq|].
  split; [exact equals_eq|].
  split; [exact Equals_eq|].
  split.
  - eexists. eexists.
    split; [vm_compute; reflexivity|].
    split; [vm_compute; reflexivity|].
    split; [intros v; apply Includes_swap | reflexivity].
  - eexists. eexists.
    split; [vm_compute; reflexivity|].
    split; [vm_compute; reflexivity|].
    split; [intros v; apply Includes_twice | reflexivity].
Qed.

(** ** Restrictiveness *)

Lemma asRestrictedAs_spec (ra vr : abstractRange) :
  asRestrictedAs ra vr = true <->
  (CompareTo (start vr) (start ra) < 0 \/
   (CompareTo (start vr) (start ra) = 0 /\
    (isExcludeStart ra = true \/ isExcludeStart vr = false))) /\
  (CompareTo (end_ vr) (end_ ra) > 0 \/
   (CompareTo (end_ vr) (end_ ra) = 0 /\
    (isExcludeEnd ra = true \/ isExcludeEnd vr = false))).
Proof.
  unfold asRestrictedAs.
  set (cs := CompareTo (start vr) (start ra)).
  set (ce := CompareTo (end_ vr) (end_ ra)).
  rewrite (Z.gtb_ltb cs 0).
  destruct (Z.ltb_spec 0 cs), (Z.eqb_spec cs 0), (Z.ltb_spec ce 0), (Z.eqb_spec ce 0),
    (isExcludeStart ra), (isExcludeStart vr), (isExcludeEnd ra), (isExcludeEnd vr);
    simpl; intuition (try lia; try discriminate).
Qed.

(** ** The text of a parsed range *)

Lemma opWsLoop_free (s : string) :
  opWsFree s = true ->
  opWsLoop Scanning s = s /\
  (match s with
   | String d _ => Go.isSpace d || (d =? "v")%char = false
   | "" => True
   end -> opWsLoop AfterOp s = s).
Proof.
  induction s as [|c r IH]; simpl; [auto|].
  intros H. apply andb_true_iff in H as [Hc Hr].
  destruct (IH Hr) as [IHs IHa].
  assert (E : opWsLoop (if isOpChar c then AfterOp else Scanning) r = r).
  { destruct (isOpChar c); [|assumption].
    apply IHa. destruct r as [|d r']; [exact I|].
    now apply negb_true_iff in Hc. }
  split.
  - now rewrite E.
  - intros Hd. apply orb_false_iff in Hd as [-> ->]. now rewrite E.
Qed.

Lemma opWsReplaceAll_free (s : string) :
  opWsFree s = true -> opWsReplaceAll s = s.
Proof. intros H. now apply opWsLoop_free. Qed.

Lemma opWsReplaceAll_nonempty (s : string) :
  s <> "" -> opWsReplaceAll s <> "".
Proof. destruct s; [congruence | discriminate]. Qed.

(** C3. The range parsed from [s] is written as [s] after its
    operators are joined to their operands, whenever an alternative is
    left; it is then written as [s] itself if no operator of [s] is
    followed by a space or a [v].  When no alternative is left the result
    is [MatchNone]. *)
Theorem C3_String_of_parsed (s : string) (r : versionRange) :
  ParseVersionRange s = Ok (Some r) ->
  exists alts,
    parseAlternatives (orSplit (opWsReplaceAll s)) [] = Ok alts /\
    (alts = [] -> r = MatchNone) /\
    (alts <> [] ->
     String_ r = opWsReplaceAll s /\ (opWsFree s = true -> String_ r = s)).
Proof.
  unfold ParseVersionRange.
  destruct (String.eqb_spec s "") as [|Hne]; [discriminate|].
  destruct (List.length (orSplit (opWsReplaceAll s)) =? 0)%nat; [discriminate|].
  destruct (parseAlternatives (orSplit (opWsReplaceAll s)) []) as [rs|e];
    simpl; [|discriminate].
  intros H. injection H as <-. exists rs. split; [reflexivity|]. split.
  - intros ->. reflexivity.
  - intros Hrs.
    destruct (newVersionRange_nonempty (opWsReplaceAll s) rs Hrs) as (rs' & _ & E).
    rewrite E. unfold String_, ToString. simpl.
    destruct (String.eqb_spec (opWsReplaceAll s) "") as [He|_].
    + now apply opWsReplaceAll_nonempty in He.
    + split; [reflexivity|]. intros Hf. now apply opWsReplaceAll_free.
Qed.

Lemma C3_String_of_parsed_witness :
  exists r alts,
    ParseVersionRange "~> 1.2 || >=v2.0.0" = Ok (Some r) /\
    parseAlternatives (orSplit (opWsReplaceAll "~> 1.2 || >=v2.0.0")) [] = Ok alts /\
    (alts = [] -> r = MatchNone) /\
    (alts <> [] ->
     String_ r = opWsReplaceAll "~> 1.2 || >=v2.0.0" /\
     (opWsFree "~> 1.2 || >=v2.0.0" = true -> String_ r = "~> 1.2 || >=v2.0.0")).
Proof.
  eexists.
  destruct (C3_String_of_parsed "~> 1.2 || >=v2.0.0" _ eq_refl) as (alts & H).
  exists alts. split; [reflexivity | exact H].
Defined.

(** The text [>= 1.2.3] is accepted and written back as [>=1.2.3]. *)
Lemma C3_roundtrip_counterexample :
  exists r, ParseVersionRange ">= 1.2.3" = Ok (Some r) /\
            String_ r <> ">= 1.2.3".
Proof.
  eexists. split; [vm_compute; reflexivity | vm_compute; discriminate].
Qed.

(** ** Comparators on partial versions *)

Lemma NewVersion3_plain (a b c : Z) :
  0 <= a -> 0 <= b -> 0 <= c -> NewVersion3 a b c "" "" = Ok (v3 a b c).
Proof.
  intros Ha Hb Hc. unfold NewVersion3.
  destruct (Z.ltb_spec a 0); [lia|].
  destruct (Z.ltb_spec b 0); [lia|].
  destruct (Z.ltb_spec c 0); [lia|]. reflexivity.
Qed.


(** ** The algebra of bounds, on what the methods answer *)

Section Algebra.

Variables ra rb : abstractRange.

(** The case analysis of [intersection]. *)
Lemma intersection_by_accessors :
  let c1 := CompareTo (start ra) (end_ rb) in
  let c2 := CompareTo (start rb) (end_ ra) in
  (c1 > 0 -> intersection ra rb = None) /\
  (c1 = 0 ->
   intersection ra rb =
   if isExcludeStart ra || isExcludeEnd rb then None
   else Some (eqRange (start ra))) /\
  (c1 < 0 -> c2 > 0 -> intersection ra rb = None) /\
  (c1 < 0 -> c2 = 0 ->
   intersection ra rb =
   if isExcludeStart rb || isExcludeEnd ra then None
   else Some (eqRange (start rb))) /\
  (c1 < 0 -> c2 < 0 ->
   intersection ra rb = Some (joinEdges (lowerSide ra rb) (upperSide ra rb))).
Proof.
  intros c1 c2. unfold intersection. fold c1 c2.
  rewrite (Z.gtb_ltb c1), (Z.gtb_ltb c2).
  destruct (Z.ltb_spec 0 c1), (Z.eqb_spec c1 0);
    try (repeat split; intros; (reflexivity || lia)).
  destruct (Z.ltb_spec 0 c2), (Z.eqb_spec c2 0);
    try (repeat split; intros; (reflexivity || lia)).
  repeat split; intros; try lia.
  unfold joinEdges, lowerSide, upperSide.
  rewrite (Z.gtb_ltb (CompareTo (start ra) (start rb))),
    (Z.gtb_ltb (CompareTo (end_ ra) (end_ rb))).
  destruct (Z.compare_spec (CompareTo (start ra) (start rb)) 0) as [Es|Es|Es];
    destruct (Z.compare_spec (CompareTo (end_ ra) (end_ rb)) 0) as [Ee|Ee|Ee];
    repeat match goal with
      | |- context [?a <? ?b] => destruct (Z.ltb_spec a b); try lia
      end;
    repeat match goal with
      | |- context [negb ?b] => destruct b; simpl negb; cbv iota
      end;
    reflexivity.
Qed.

(** When neither bound includes the start of the other, [union] gives a
    bound exactly in the five cases of [adjacent]. *)
Lemma union_by_accessors :
  includes ra (start rb) = false ->
  includes rb (start ra) = false ->
  (union ra rb <> None <-> adjacent ra rb).
Proof.
  intros Ha Hb. unfold union, adjacent, sameOpenStart, openEndMeetsStart,
    nextPatchMeetsStart.
  rewrite Ha, Hb. simpl orb. cbv iota.
  destruct (isExcludeStart ra), (isExcludeStart rb), (isExcludeEnd ra), (isExcludeEnd rb);
    simpl;
    repeat match goal with
      | |- context [?a =? ?b] => destruct (Z.eqb_spec a b)
      end;
    split; intros H; try discriminate; try congruence;
    intuition (try discriminate; try congruence).
Qed.

End Algebra.

(** ** Hyphen expressions *)

Section Hyphen.

Lemma wrap64_id (z : Z) : - 2 ^ 63 <= z < 2 ^ 63 -> Go.wrap64 z = z.
Proof.
  intros H. unfold Go.wrap64. rewrite Z.mod_small; lia.
Qed.

Lemma digits_nonneg (s : string) :
  forall acc n, 0 <= acc -> Go.digits acc s = Some n -> 0 <= n.
Proof.
  induction s as [|c r IH]; simpl; intros acc n Hacc H.
  - injection H as <-. assumption.
  - destruct (Go.isDigit c) eqn:Hd; [|discriminate].
    apply IH in H; [assumption|].
    unfold Go.isDigit, Go.between in Hd.
    apply andb_true_iff in Hd as [Hlo _]. apply N.leb_le in Hlo. lia.
Qed.

Lemma magnitude_nonneg (s : string) (n : Z) : Go.magnitude s = Some n -> 0 <= n.
Proof.
  destruct s; [discriminate|]. unfold Go.magnitude.
  apply digits_nonneg. lia.
Qed.

Lemma ParseInt_range (s : string) (i : Z) :
  Go.ParseInt s = (i, None) -> Go.MinInt64 <= i <= Go.MaxInt64.
Proof.
  unfold Go.ParseInt.
  destruct (match s with
            | String "+" r => (false, r)
            | String "-" r => (true, r)
            | _ => (false, s)
            end) as [neg body].
  destruct (Go.magnitude body) as [un|] eqn:Hm; [|discriminate].
  apply magnitude_nonneg in Hm.
  unfold Go.MinInt64, Go.MaxInt64.
  destruct neg; cbn [negb andb].
  - destruct (Z.ltb_spec (2 ^ 63) un); [discriminate|].
    intros E. injection E as <-. lia.
  - destruct (Z.leb_spec (2 ^ 63) un); [discriminate|].
    intros E. injection E as <-. lia.
Qed.

Lemma xDigit_range (s : string) (n : Z) (ok : bool) :
  xDigit s = Ok (n, ok) -> Go.MinInt64 <= n <= Go.MaxInt64.
Proof.
  unfold xDigit.
  destruct ((s =? "")%string || (s =? "x")%string || (s =? "X")%string
            || (s =? "*")%string).
  - intros E. injection E as <- <-. unfold Go.MinInt64, Go.MaxInt64. lia.
  - destruct (Go.ParseInt s) as [i [e|]] eqn:Hp; [discriminate|].
    intros E. injection E as <- <-. now apply ParseInt_range in Hp.
Qed.

Lemma NewVersion3_numbers (a b c : Z) (p q : string) (v : version) :
  NewVersion3 a b c p q = Ok v ->
  major v = a /\ minor v = b /\ patch v = c /\ 0 <= a /\ 0 <= b /\ 0 <= c.
Proof.
  unfold NewVersion3.
  destruct (Z.ltb_spec a 0); [discriminate|].
  destruct (Z.ltb_spec b 0); [discriminate|].
  destruct (Z.ltb_spec c 0); [discriminate|]. simpl.
  destruct (splitParts "pre-release" p true); [|discriminate]. simpl.
  destruct (splitParts "build" q false); [|discriminate]. simpl.
  intros E. injection E as <-. simpl. repeat split; assumption || reflexivity.
Qed.

Lemma in_range_Min : in_range Min.
Proof. unfold in_range, Go.MaxInt64. simpl. lia. Qed.

(** Whatever the groups are, [createGtEqRange] gives a bound [>=v]. *)
Lemma createGtEqRange_shape (g : list string) (i : nat) (b : abstractRange) :
  createGtEqRange g i = Ok b -> exists v, b = gtEqRange v /\ in_range v.
Proof.
  unfold createGtEqRange.
  destruct (xDigit (group g i)) as [[major ok1]|] eqn:H1; [|discriminate]. simpl.
  destruct ok1; simpl.
  2:{ intros E. injection E as <-. exists Min. split; [reflexivity | apply in_range_Min]. }
  destruct (xDigit (group g (S i))) as [[minor ok2]|] eqn:H2; [|discriminate]. simpl.
  destruct (xDigit (group g (S (S i)))) as [[patch ok3]|] eqn:H3; [|discriminate]. simpl.
  destruct (NewVersion3 major (if negb ok2 then 0 else minor)
              (if negb ok3 then 0 else patch)
              (group g (S (S (S i)))) (group g (S (S (S (S i))))))
    as [v|] eqn:Hv; [|discriminate]. simpl.
  intros E. injection E as <-. exists v. split; [reflexivity|].
  apply NewVersion3_numbers in Hv as (Ea & Eb & Ec & Ha & Hb & Hc).
  apply xDigit_range in H1, H2, H3.
  unfold in_range. rewrite Ea, Eb, Ec.
  repeat split; try assumption; try apply H1.
  - destruct ok2; simpl; [apply H2 | unfold Go.MaxInt64; lia].
  - destruct ok3; simpl; [apply H3 | unfold Go.MaxInt64; lia].
Qed.

Lemma comparePreReleases_stable (p : option (list segment)) :
  comparePreReleases p None <= 0.
Proof. destruct p; simpl; lia. Qed.

Lemma CompareTo_Max (v : version) : in_range v -> CompareTo v Max <= 0.
Proof.
  intros (Ha & Hb & Hc). unfold CompareTo, Max, Go.sub. simpl.
  unfold Go.MaxInt64 in *.
  rewrite !wrap64_id by lia.
  destruct (Z.eqb_spec (major v - 9223372036854775807) 0); [|lia].
  destruct (Z.eqb_spec (minor v - 9223372036854775807) 0); [|lia].
  destruct (Z.eqb_spec (patch v - 9223372036854775807) 0); [|lia].
  apply comparePreReleases_stable.
Qed.

(** The alternative of a hyphen expression is never nil, and it has no
    end below [Max]: both of its sides are bounds [>=v]. *)
Lemma hyphen_alternative (g : list string) (e1 e2 : abstractRange) :
  createGtEqRange g 1 = Ok e1 ->
  createGtEqRange g 6 = Ok e2 ->
  exists b, intersection e1 e2 = Some b /\ CompareTo (end_ b) Max = 0.
Proof.
  intros H1 H2.
  apply createGtEqRange_shape in H1 as (v1 & -> & R1).
  apply createGtEqRange_shape in H2 as (v2 & -> & R2).
  apply CompareTo_Max in R1, R2.
  unfold intersection. simpl.
  rewrite (Z.gtb_ltb (CompareTo v1 Max)), (Z.gtb_ltb (CompareTo v2 Max)).
  destruct (Z.ltb_spec 0 (CompareTo v1 Max)); [lia|].
  destruct (Z.eqb_spec (CompareTo v1 Max) 0) as [E1|E1].
  { eexists. split; [reflexivity | exact E1]. }
  destruct (Z.ltb_spec 0 (CompareTo v2 Max)); [lia|].
  destruct (Z.eqb_spec (CompareTo v2 Max) 0) as [E2|E2].
  { eexists. split; [reflexivity | exact E2]. }
  change (CompareTo Max Max) with 0. simpl.
  destruct (CompareTo v1 v2 <? 0); [eexists; split; reflexivity|].
  destruct (CompareTo v1 v2 >? 0); eexists; split; reflexivity.
Qed.

(** No text makes [ParseVersionRange] store a nil bound. *)
Lemma bind_not_nil {A B} (r : result A) (k : A -> result B) :
  r <> Err NilBound -> (forall a, k a <> Err NilBound) ->
  bind r k <> Err NilBound.
Proof.
  intros Hr Hk. destruct r as [a|e]; simpl; [apply Hk|].
  intros E. apply Hr. now injection E as ->.
Qed.

Lemma xDigit_not_nil (s : string) : xDigit s <> Err NilBound.
Proof.
  unfold xDigit.
  destruct ((s =? "")%string || (s =? "x")%string || (s =? "X")%string
            || (s =? "*")%string); [discriminate|].
  destruct (Go.ParseInt s) as [i [e|]]; discriminate.
Qed.

Lemma NewVersion3_not_nil (a b c : Z) (p q : string) :
  NewVersion3 a b c p q <> Err NilBound.
Proof.
  unfold NewVersion3, splitParts.
  destruct ((a <? 0) || (b <? 0) || (c <? 0)); [discriminate|].
  destruct (p =? "")%string; simpl;
    [|destruct (vPRPartsPattern p); simpl; [|discriminate]];
    (destruct (q =? "")%string; simpl;
     [|destruct (vPartsPattern q); simpl]; discriminate).
Qed.

Ltac not_nil :=
  repeat first
    [ apply bind_not_nil; [first [apply xDigit_not_nil | apply NewVersion3_not_nil]|];
      intros
    | match goal with
      | |- (let '(_, _) := ?p in _) <> _ => destruct p
      | |- (match ?p with (_, _) => _ end) <> _ => destruct p
      | |- (if ?b then _ else _) <> _ => destruct b
      | |- Ok _ <> _ => discriminate
      end ].

Lemma createRange_not_nil (m : list string) : createRange m <> Err NilBound.
Proof.
  unfold createRange, createTildeRange, createCaretRange, createXRange,
    createGtRange, createGtEqRange, createLtRange, createLtEqRange,
    allowPatchUpdates, allowMinorUpdates.
  not_nil;
    (destruct (xDigit _) as [[? ?]|]; not_nil).
Qed.

Lemma parseSimples_not_nil (simples : list string) :
  forall sr, parseSimples simples sr <> Err NilBound.
Proof.
  induction simples as [|simple rest IH]; intros sr; simpl; [discriminate|].
  destruct (simplePattern simple) as [m|]; [|discriminate].
  apply bind_not_nil; [apply createRange_not_nil|].
  intros rng. destruct sr; apply IH.
Qed.

Lemma parseAlternatives_not_nil (rangeStrings : list string) :
  forall acc, parseAlternatives rangeStrings acc <> Err NilBound.
Proof.
  induction rangeStrings as [|rangeStr rest IH]; intros acc; simpl; [discriminate|].
  destruct (rangeStr =? "")%string; [apply IH|].
  destruct (hyphenPattern rangeStr) as [m|].
  - destruct (createGtEqRange m 1) as [e1|err1] eqn:H1; simpl.
    2:{ intros E. injection E as ->.
        unfold createGtEqRange in H1. revert H1. not_nil. }
    destruct (createGtEqRange m 6) as [e2|err2] eqn:H2; simpl.
    2:{ intros E. injection E as ->.
        unfold createGtEqRange in H2. revert H2. not_nil. }
    destruct (hyphen_alternative m e1 e2 H1 H2) as (b & -> & _). apply IH.
  - apply bind_not_nil; [apply parseSimples_not_nil|].
    intros [sr|]; apply IH.
Qed.

End Hyphen.

(** ** Evaluations *)

(** C1. The hyphen expression [1.2.3 - 2.3.4] is read with
    [createGtEqRange] at both ends: its alternative is [>=2.3.4], which
    has no upper end, includes 3.0.0 and leaves out 1.5.0. *)
Theorem C1_hyphen_has_no_upper_end :
  exists r high,
    ParseVersion "2.3.4" = Ok high /\
    ParseVersionRange "1.2.3 - 2.3.4" = Ok (Some r) /\
    ranges r = [gtEqRange high] /\
    EndVersion r = Some Max /\
    NormalizedString r = ">=2.3.4" /\
    Includes r (Some (v3 3 0 0)) = true /\
    Includes r (Some (v3 1 5 0)) = false.
Proof.
  eexists. eexists. evaluate_all.
Qed.

(** C2. [minPrereleases] is the nil slice, so [Min] is the stable
    version 0.0.0: it is above the pre-release 0.0.0-alpha, the range
    [*] is written [>=0.0.0] and does not include 1.2.3-rc1. *)
Theorem C2_Min_is_stable_zero :
  Min = Zero /\
  IsStable Min = true /\
  (exists p, ParseVersion "0.0.0-alpha" = Ok p /\ CompareTo Min p > 0) /\
  (exists r rc,
      ParseVersionRange "*" = Ok (Some r) /\
      ParseVersion "1.2.3-rc1" = Ok rc /\
      Includes r (Some Min) = true /\
      Includes r (Some rc) = false /\
      NormalizedString r = ">=0.0.0").
Proof.
  evaluate_equations. split.
  - eexists. evaluate_all.
  - eexists. eexists. evaluate_all.
Qed.

(** C6. [isExcludeEnd] is false of [<1.0.0], which does not include
    1.0.0: the intersection of [>=1.0.0] and [<1.0.0] is the exact bound
    1.0.0, and on equal ends [<=2.0.0] is preferred to [<2.0.0].  Through
    the parser: [>=1.0.0 <1.0.0] includes 1.0.0, and [IsExcludeEnd] is
    false of [<2.0.0]. *)
Theorem C6_intersection_ignores_excluded_end :
  isExcludeEnd (ltRange (v3 1 0 0)) = false /\
  includes (ltRange (v3 1 0 0)) (v3 1 0 0) = false /\
  intersection (gtEqRange (v3 1 0 0)) (ltRange (v3 1 0 0))
  = Some (eqRange (v3 1 0 0)) /\
  intersection (ltRange (v3 2 0 0)) (ltEqRange (v3 2 0 0))
  = Some (ltEqRange (v3 2 0 0)) /\
  (exists r, ParseVersionRange ">=1.0.0 <1.0.0" = Ok (Some r) /\
             ranges r = [eqRange (v3 1 0 0)] /\
             Includes r (Some (v3 1 0 0)) = true) /\
  (exists r, ParseVersionRange "<2.0.0" = Ok (Some r) /\
             EndVersion r = Some (v3 2 0 0) /\
             Includes r (Some (v3 2 0 0)) = false /\
             IsExcludeEnd r = false).
Proof.
  evaluate_equations. split; eexists; evaluate_all.
Qed.

(** C7. [<1.2.3] and [>=1.2.3] do not overlap and the first ends, with
    its end excluded, where the second starts; [union] gives nil in either
    order and the range [<1.2.3 || >=1.2.3] keeps two alternatives.  The
    end of [<1.2.3] is taken for an included one instead: [<1.2.3] and
    [>=1.2.4] are united, into a bound that includes 1.2.3. *)
Theorem C7_union_misses_exclusive_end :
  includes (ltRange (v3 1 2 3)) (start (gtEqRange (v3 1 2 3))) = false /\
  includes (gtEqRange (v3 1 2 3)) (start (ltRange (v3 1 2 3))) = false /\
  CompareTo (end_ (ltRange (v3 1 2 3))) (start (gtEqRange (v3 1 2 3))) = 0 /\
  union (ltRange (v3 1 2 3)) (gtEqRange (v3 1 2 3)) = None /\
  union (gtEqRange (v3 1 2 3)) (ltRange (v3 1 2 3)) = None /\
  (exists r, ParseVersionRange "<1.2.3 || >=1.2.3" = Ok (Some r) /\
             ranges r = [ltRange (v3 1 2 3); gtEqRange (v3 1 2 3)]) /\
  (exists b, union (ltRange (v3 1 2 3)) (gtEqRange (v3 1 2 4)) = Some b /\
             b = startEndRange (gtEqRange Min) (ltEqRange Max) /\
             includes b (v3 1 2 3) = true).
Proof.
  evaluate_equations. split; eexists; evaluate_all.
Qed.

(** [xDigit] reports a number that does not fit in 64 bits. *)
Lemma xDigit_overflow (c : ascii) (r : string) (n : Z) :
  Go.isDigit c = true ->
  Go.magnitude (String c r) = Some n ->
  2 ^ 63 <= n ->
  xDigit (String c r) = Err IllegalTriplet.
Proof.
  intros Hc Hn Hbig. unfold xDigit.
  assert (Hw : (String c r =? "")%string || (String c r =? "x")%string
               || (String c r =? "X")%string || (String c r =? "*")%string = false).
  { repeat (apply orb_false_iff; split); apply String.eqb_neq; intros E;
      try discriminate; inversion E; subst; discriminate. }
  rewrite Hw. unfold Go.ParseInt.
  assert (Hs : match String c r with
               | String "+" r0 => (false, r0)
               | String "-" r0 => (true, r0)
               | _ => (false, String c r)
               end = (false, String c r)).
  { destruct c as [[] [] [] [] [] [] [] []]; try reflexivity; discriminate. }
  rewrite Hs, Hn. simpl negb. cbv iota beta.
  destruct (Z.leb_spec (2 ^ 63) n); [reflexivity | lia].
Qed.

(** C9. A major part that does not fit in 64 bits is accepted by
    [ParseVersion], which takes the largest [int] for it, and so is such a
    minor part after a caret; the other terms of a range refuse it. *)
Theorem C9_overflow_is_accepted :
  ParseVersion "9223372036854775808.0.0" = Ok (v3 Go.MaxInt64 0 0) /\
  ParseVersion "1.0.99999999999999999999" = Ok (v3 1 0 Go.MaxInt64) /\
  (exists r, ParseVersionRange "^1.9223372036854775808.0" = Ok (Some r) /\
             ranges r = [startEndRange (gtEqRange (v3 1 0 0)) (ltRange (v3 2 0 0))]) /\
  ParseVersionRange "~1.9223372036854775808.0" = Err IllegalTriplet /\
  ParseVersionRange "9223372036854775808.0.0" = Err IllegalTriplet.
Proof.
  evaluate_equations. split; [eexists; evaluate_all | evaluate_all].
Qed.


(** * Further properties of the package *)

(** ** The order of versions *)

Section Order.

Lemma wrap64_cases (z : Z) :
  - 2 ^ 64 < z < 2 ^ 64 ->
  (- 2 ^ 63 <= z < 2 ^ 63 /\ Go.wrap64 z = z) \/
  (2 ^ 63 <= z /\ Go.wrap64 z = z - 2 ^ 64) \/
  (z < - 2 ^ 63 /\ Go.wrap64 z = z + 2 ^ 64).
Proof.
  intros H. unfold Go.wrap64.
  destruct (Z_lt_le_dec z (- 2 ^ 63)) as [Hlo|Hlo];
    [|destruct (Z_lt_le_dec z (2 ^ 63)) as [Hhi|Hhi]].
  - right. right. split; [assumption|].
    replace (z + 2 ^ 63) with (z + 2 ^ 64 + 2 ^ 63 + (-1) * 2 ^ 64) by ring.
    rewrite Z_mod_plus_full, Z.mod_small; lia.
  - left. split; [lia|]. rewrite Z.mod_small; lia.
  - right. left. split; [assumption|].
    replace (z + 2 ^ 63) with (z - 2 ^ 64 + 2 ^ 63 + 1 * 2 ^ 64) by ring.
    rewrite Z_mod_plus_full, Z.mod_small; lia.
Qed.

Lemma sub_zero_iff (a b : Z) :
  Go.MinInt64 <= a <= Go.MaxInt64 -> Go.MinInt64 <= b <= Go.MaxInt64 ->
  (Go.sub a b = 0 <-> a = b).
Proof.
  unfold Go.MinInt64, Go.MaxInt64, Go.sub. intros Ha Hb.
  destruct (wrap64_cases (a - b)) as [[R E]|[[R E]|[R E]]]; try lia; rewrite E; lia.
Qed.

Lemma sub_exact (a b : Z) :
  0 <= a <= Go.MaxInt64 -> 0 <= b <= Go.MaxInt64 -> Go.sub a b = a - b.
Proof.
  unfold Go.MaxInt64, Go.sub. intros Ha Hb. apply wrap64_id. lia.
Qed.

Lemma sub_diag (a : Z) : Go.sub a a = 0.
Proof. unfold Go.sub. rewrite Z.sub_diag. reflexivity. Qed.

Lemma string_compare_refl (s : string) : String.compare s s = Eq.
Proof.
  pose proof (String.compare_antisym s s) as H.
  destruct (String.compare s s); simpl in H; congruence.
Qed.

Lemma Compare_zero_iff (s t : string) : Go.Compare s t = 0 <-> s = t.
Proof.
  unfold Go.Compare. split.
  - destruct (String.compare s t) eqn:E; try discriminate.
    intros _. now apply String.compare_eq_iff.
  - intros ->. now rewrite string_compare_refl.
Qed.

Lemma Compare_antisym (s t : string) : Go.Compare t s = - Go.Compare s t.
Proof.
  unfold Go.Compare. rewrite (String.compare_antisym s t).
  destruct (String.compare t s); reflexivity.
Qed.

(** A version compares equal to itself, whatever its numbers are. *)
Lemma comparePreReleasesLoop_refl (l : list segment) :
  forall n, comparePreReleasesLoop n n l l = 0.
Proof.
  induction l as [|x l IH]; intros n; simpl.
  - apply sub_diag.
  - destruct x as [i|s].
    + rewrite sub_diag. simpl. apply IH.
    + rewrite (proj2 (Compare_zero_iff s s) eq_refl). simpl. apply IH.
Qed.

Lemma CompareTo_refl (v : version) : CompareTo v v = 0.
Proof.
  unfold CompareTo. rewrite !sub_diag. simpl.
  destruct (preRelease v); simpl; [apply comparePreReleasesLoop_refl | reflexivity].
Qed.

Lemma comparePreReleasesLoop_zero_iff (l1 : list segment) :
  forall l2 s1 s2,
    Forall seg_in_int l1 -> Forall seg_in_int l2 ->
    Z.of_nat (List.length l1) <= Go.MaxInt64 ->
    Z.of_nat (List.length l2) <= Go.MaxInt64 ->
    s1 - s2 = Z.of_nat (List.length l1) - Z.of_nat (List.length l2) ->
    (comparePreReleasesLoop s1 s2 l1 l2 = 0 <-> l1 = l2).
Proof.
  induction l1 as [|x l1 IH]; intros l2 s1 s2 F1 F2 B1 B2 Hs.
  - unfold Go.MaxInt64 in *.
    destruct l2 as [|y l2]; simpl in *; unfold Go.sub; rewrite Hs, wrap64_id by lia.
    + tauto.
    + split; [lia | discriminate].
  - destruct l2 as [|y l2].
    + unfold Go.MaxInt64 in *. simpl in *. unfold Go.sub. rewrite Hs, wrap64_id by lia.
      split; [lia | discriminate].
    + inversion F1 as [|? ? Hx F1']; inversion F2 as [|? ? Hy F2']; subst.
      assert (IH' : comparePreReleasesLoop s1 s2 l1 l2 = 0 <-> l1 = l2).
      { apply IH; try assumption; simpl List.length in *; lia. }
      simpl. destruct x as [i|s], y as [j|t]; simpl in Hx, Hy.
      * pose proof (sub_zero_iff i j Hx Hy) as Z.
        destruct (Z.eqb_spec (Go.sub i j) 0) as [E|E]; simpl.
        -- apply Z in E. subst j. rewrite IH'. split; [now intros -> | now intros [= ->]].
        -- split; [contradiction|]. intros [= -> _]. apply Z. reflexivity.
      * split; [lia | discriminate].
      * split; [lia | discriminate].
      * pose proof (Compare_zero_iff s t) as Z.
        destruct (Z.eqb_spec (Go.Compare s t) 0) as [E|E]; simpl.
        -- apply Z in E. subst t. rewrite IH'. split; [now intros -> | now intros [= ->]].
        -- split; [contradiction|]. intros [= -> _]. apply Z. reflexivity.
Qed.

Lemma comparePreReleases_zero_iff (p q : option (list segment)) :
  segs seg_in_int p -> segs seg_in_int q ->
  (comparePreReleases p q = 0 <-> p = q).
Proof.
  destruct p as [l1|], q as [l2|]; simpl; intros Hp Hq;
    try (split; [lia | discriminate]); [|tauto].
  destruct Hp as [B1 F1], Hq as [B2 F2].
  rewrite (comparePreReleasesLoop_zero_iff l1 l2 _ _ F1 F2 B1 B2 eq_refl).
  split; [now intros -> | now intros [= ->]].
Qed.

Lemma CompareTo_zero_fields (v o : version) :
  well_formed v -> well_formed o ->
  (CompareTo v o = 0 <->
   major v = major o /\ minor v = minor o /\ patch v = patch o /\
   preRelease v = preRelease o).
Proof.
  intros [(Ha & Hb & Hc) Hp] [(Ha' & Hb' & Hc') Hq].
  assert (I : forall x, 0 <= x <= Go.MaxInt64 -> Go.MinInt64 <= x <= Go.MaxInt64)
    by (unfold Go.MinInt64; lia).
  pose proof (sub_zero_iff _ _ (I _ Ha) (I _ Ha')) as Za.
  pose proof (sub_zero_iff _ _ (I _ Hb) (I _ Hb')) as Zb.
  pose proof (sub_zero_iff _ _ (I _ Hc) (I _ Hc')) as Zc.
  pose proof (comparePreReleases_zero_iff _ _ Hp Hq) as Zp.
  unfold CompareTo.
  destruct (Z.eqb_spec (Go.sub (major v) (major o)) 0) as [Ea|Ea];
    [|split; [contradiction | intros (E & _); apply Za, E]].
  destruct (Z.eqb_spec (Go.sub (minor v) (minor o)) 0) as [Eb|Eb];
    [|split; [contradiction | intros (_ & E & _); apply Zb, E]].
  destruct (Z.eqb_spec (Go.sub (patch v) (patch o)) 0) as [Ec|Ec];
    [|split; [contradiction | intros (_ & _ & E & _); apply Zc, E]].
  rewrite Zp. apply Za in Ea. apply Zb in Eb. apply Zc in Ec. tauto.
Qed.

(** X1. Two well-formed versions compare equal exactly when they have
    the same three numbers and the same pre-release: they differ in
    their build at most. *)
Theorem CompareTo_zero_iff (v o : version) :
  well_formed v -> well_formed o ->
  (CompareTo v o = 0 <->
   major v = major o /\ minor v = minor o /\ patch v = patch o /\
   preRelease v = preRelease o).
Proof. exact (CompareTo_zero_fields v o). Qed.

Lemma comparePreReleasesLoop_antisym (l1 : list segment) :
  forall l2 s1 s2,
    Forall seg_nonneg l1 -> Forall seg_nonneg l2 ->
    0 <= s1 <= Go.MaxInt64 -> 0 <= s2 <= Go.MaxInt64 ->
    comparePreReleasesLoop s2 s1 l2 l1 = - comparePreReleasesLoop s1 s2 l1 l2.
Proof.
  induction l1 as [|x l1 IH]; intros l2 s1 s2 F1 F2 B1 B2.
  - destruct l2; simpl; rewrite !sub_exact by assumption; lia.
  - destruct l2 as [|y l2]; [simpl; rewrite !sub_exact by assumption; lia|].
    inversion F1 as [|? ? Hx F1']; inversion F2 as [|? ? Hy F2']; subst.
    specialize (IH l2 s1 s2 F1' F2' B1 B2).
    simpl. destruct x as [i|s], y as [j|t]; simpl in Hx, Hy; try reflexivity.
    + rewrite (sub_exact i j), (sub_exact j i) by assumption.
      destruct (Z.eqb_spec (j - i) 0), (Z.eqb_spec (i - j) 0); simpl; lia.
    + rewrite (Compare_antisym s t).
      destruct (Z.eqb_spec (- Go.Compare s t) 0), (Z.eqb_spec (Go.Compare s t) 0);
        simpl; lia.
Qed.

(** X2. On plain versions the comparison is antisymmetric: exchanging
    the two versions changes the sign of the result. *)
Theorem CompareTo_antisym (v o : version) :
  plain v -> plain o -> CompareTo o v = - CompareTo v o.
Proof.
  intros [(Ha & Hb & Hc) Hp] [(Ha' & Hb' & Hc') Hq].
  unfold CompareTo.
  rewrite (sub_exact (major v) (major o)), (sub_exact (major o) (major v)),
    (sub_exact (minor v) (minor o)), (sub_exact (minor o) (minor v)),
    (sub_exact (patch v) (patch o)), (sub_exact (patch o) (patch v)) by assumption.
  assert (P : comparePreReleases (preRelease o) (preRelease v)
              = - comparePreReleases (preRelease v) (preRelease o)).
  { destruct (preRelease v) as [l1|], (preRelease o) as [l2|]; simpl in *;
      try reflexivity.
    destruct Hp as [B1 F1], Hq as [B2 F2].
    apply comparePreReleasesLoop_antisym; try assumption; lia. }
  destruct (Z.eqb_spec (major o - major v) 0), (Z.eqb_spec (major v - major o) 0);
    try lia.
  destruct (Z.eqb_spec (minor o - minor v) 0), (Z.eqb_spec (minor v - minor o) 0);
    try lia.
  destruct (Z.eqb_spec (patch o - patch v) 0), (Z.eqb_spec (patch v - patch o) 0);
    lia.
Qed.

(** X3. [ToStable] gives a stable version with the same numbers and
    build, which is not below the version it comes from, and is above it
    exactly when that one is a pre-release. *)
Theorem ToStable_above (v : version) :
  IsStable (ToStable v) = true /\
  TripletEquals v (ToStable v) = true /\
  build (ToStable v) = build v /\
  CompareTo v (ToStable v) <= 0 /\
  (CompareTo v (ToStable v) < 0 <-> IsStable v = false).
Proof.
  assert (E : CompareTo v (ToStable v) = comparePreReleases (preRelease v) None).
  { unfold CompareTo, ToStable. simpl. rewrite !sub_diag. reflexivity. }
  rewrite E. unfold IsStable, TripletEquals, tripletEquals, ToStable. simpl.
  rewrite !Z.eqb_refl.
  destruct (preRelease v); simpl; repeat split; try lia; try reflexivity;
    try discriminate.
Qed.

Lemma sub_add_one (p : Z) : Go.sub p (Go.add p 1) = -1.
Proof.
  unfold Go.sub, Go.add, Go.wrap64.
  rewrite (Z.mod_eq (p + 1 + 2 ^ 63) (2 ^ 64)) by lia.
  replace (p - (p + 1 + 2 ^ 63 - 2 ^ 64 * ((p + 1 + 2 ^ 63) / 2 ^ 64) - 2 ^ 63) + 2 ^ 63)
    with (2 ^ 63 - 1 + ((p + 1 + 2 ^ 63) / 2 ^ 64) * 2 ^ 64) by ring.
  rewrite Z_mod_plus_full, Z.mod_small; lia.
Qed.

(** X4. [NextPatch] gives a stable version without build that is above
    the version it comes from, whatever that one is; its patch is the
    next one, or the least [int] after the largest. *)
Theorem NextPatch_above (v : version) :
  IsStable (NextPatch v) = true /\ build (NextPatch v) = None /\
  TripletEquals (NextPatch v) v = false /\
  CompareTo v (NextPatch v) < 0 /\
  (Go.MinInt64 <= patch v < Go.MaxInt64 -> patch (NextPatch v) = patch v + 1) /\
  (patch v = Go.MaxInt64 -> patch (NextPatch v) = Go.MinInt64).
Proof.
  split; [reflexivity|]. split; [reflexivity|].
  pose proof (sub_add_one (patch v)) as E.
  split; [|split; [|split]].
  - assert (N : Go.add (patch v) 1 <> patch v).
    { intros C. rewrite C in E. rewrite sub_diag in E. discriminate. }
    apply Z.eqb_neq in N.
    unfold TripletEquals, tripletEquals, NextPatch.
    cbn [major minor patch]. rewrite N. apply andb_false_r.
  - unfold CompareTo, NextPatch. cbn [major minor patch preRelease].
    rewrite !sub_diag, E. simpl. lia.
  - unfold Go.MinInt64, Go.MaxInt64, NextPatch, Go.add. simpl. intros H.
    apply wrap64_id. lia.
  - intros H. unfold NextPatch. cbn [patch]. rewrite H. reflexivity.
Qed.

Lemma string_compare_lt_trans (s : string) :
  forall t u, String.compare s t = Lt -> String.compare t u = Lt ->
              String.compare s u = Lt.
Proof.
  induction s as [|a s IH]; intros [|b t] [|c u]; simpl; try congruence.
  unfold Ascii.compare.
  destruct (N.compare_spec (N_of_ascii a) (N_of_ascii b)) as [E1|L1|G1];
    try discriminate;
    destruct (N.compare_spec (N_of_ascii b) (N_of_ascii c)) as [E2|L2|G2];
    try discriminate; intros H1 H2.
  - rewrite E1, E2, N.compare_refl. eapply IH; eassumption.
  - rewrite E1. now apply N.compare_lt_iff in L2 as ->.
  - rewrite <- E2. now apply N.compare_lt_iff in L1 as ->.
  - assert (L : (N_of_ascii a < N_of_ascii c)%N) by (eapply N.lt_trans; eassumption).
    now apply N.compare_lt_iff in L as ->.
Qed.

Lemma Compare_values (s t : string) :
  Go.Compare s t = -1 \/ Go.Compare s t = 0 \/ Go.Compare s t = 1.
Proof. unfold Go.Compare. destruct (String.compare s t); auto. Qed.

Lemma Compare_lt_trans (s t u : string) :
  Go.Compare s t < 0 -> Go.Compare t u < 0 -> Go.Compare s u < 0.
Proof.
  unfold Go.Compare.
  destruct (String.compare s t) eqn:E1; try lia.
  destruct (String.compare t u) eqn:E2; try lia.
  rewrite (string_compare_lt_trans s t u E1 E2). lia.
Qed.

Lemma comparePreReleasesLoop_trans (l1 : list segment) :
  forall l2 l3 k,
    Forall seg_nonneg l1 -> Forall seg_nonneg l2 -> Forall seg_nonneg l3 ->
    0 <= k ->
    k + Z.of_nat (List.length l1) <= Go.MaxInt64 ->
    k + Z.of_nat (List.length l2) <= Go.MaxInt64 ->
    k + Z.of_nat (List.length l3) <= Go.MaxInt64 ->
    let s1 := k + Z.of_nat (List.length l1) in
    let s2 := k + Z.of_nat (List.length l2) in
    let s3 := k + Z.of_nat (List.length l3) in
    let A := comparePreReleasesLoop s1 s2 l1 l2 in
    let B := comparePreReleasesLoop s2 s3 l2 l3 in
    let C := comparePreReleasesLoop s1 s3 l1 l3 in
    (A <= 0 -> B <= 0 -> C <= 0) /\
    (A < 0 -> B <= 0 -> C < 0) /\
    (A <= 0 -> B < 0 -> C < 0).
Proof.
  induction l1 as [|x l1 IH]; intros l2 l3 k F1 F2 F3 Hk B1 B2 B3.
  - destruct l2 as [|y l2], l3 as [|z l3]; simpl in *;
      rewrite ?sub_exact by lia; lia.
  - destruct l2 as [|y l2]; [simpl in *; rewrite ?sub_exact by lia; lia|].
    destruct l3 as [|z l3].
    { cbv zeta. cbn [comparePreReleasesLoop]. simpl List.length in *.
      rewrite !sub_exact by lia. lia. }
    inversion F1 as [|? ? Hx F1']; inversion F2 as [|? ? Hy F2'];
      inversion F3 as [|? ? Hz F3']; subst.
    assert (IH' := IH l2 l3 (k + 1) F1' F2' F3').
    simpl List.length in *.
    replace (k + 1 + Z.of_nat (List.length l1))
      with (k + Z.of_nat (S (List.length l1))) in IH' by lia.
    replace (k + 1 + Z.of_nat (List.length l2))
      with (k + Z.of_nat (S (List.length l2))) in IH' by lia.
    replace (k + 1 + Z.of_nat (List.length l3))
      with (k + Z.of_nat (S (List.length l3))) in IH' by lia.
    specialize (IH' ltac:(lia) B1 B2 B3). cbv zeta in IH'.
    cbv zeta. cbn [comparePreReleasesLoop].
    destruct x as [i|s], y as [j|t], z as [n|u]; simpl in Hx, Hy, Hz;
      rewrite ?(sub_exact i j), ?(sub_exact j n), ?(sub_exact i n) by assumption;
      try (repeat match goal with
                  | |- context [?a =? ?b] => destruct (Z.eqb_spec a b)
                  end; simpl negb; cbv iota; lia).
    destruct (Z.eqb_spec (Go.Compare s t) 0) as [Est|Nst].
    + apply Compare_zero_iff in Est. subst t. simpl negb. cbv iota.
      destruct (Z.eqb_spec (Go.Compare s u) 0); simpl negb; cbv iota; lia.
    + destruct (Z.eqb_spec (Go.Compare t u) 0) as [Etu|Ntu].
      * apply Compare_zero_iff in Etu. subst u. simpl negb. cbv iota.
        destruct (Z.eqb_spec (Go.Compare s t) 0); simpl negb; cbv iota; lia.
      * simpl negb. cbv iota.
        pose proof (Compare_lt_trans s t u) as T.
        destruct (Z.eqb_spec (Go.Compare s u) 0); simpl negb; cbv iota; lia.
Qed.

Lemma comparePreReleases_trans (p q r : option (list segment)) :
  segs seg_nonneg p -> segs seg_nonneg q -> segs seg_nonneg r ->
  let A := comparePreReleases p q in
  let B := comparePreReleases q r in
  let C := comparePreReleases p r in
  (A <= 0 -> B <= 0 -> C <= 0) /\
  (A < 0 -> B <= 0 -> C < 0) /\
  (A <= 0 -> B < 0 -> C < 0).
Proof.
  destruct p as [l1|], q as [l2|], r as [l3|]; simpl; intros Hp Hq Hr;
    try lia.
  destruct Hp as [B1 F1], Hq as [B2 F2], Hr as [B3 F3].
  apply (comparePreReleasesLoop_trans l1 l2 l3 0 F1 F2 F3); lia.
Qed.

(** X5. On plain versions the comparison is transitive, and strictly so
    as soon as one of the two steps is strict: the versions are totally
    ordered up to their build. *)
Theorem CompareTo_trans (a b c : version) :
  plain a -> plain b -> plain c ->
  CompareTo a b <= 0 -> CompareTo b c <= 0 ->
  CompareTo a c <= 0 /\
  (CompareTo a b < 0 \/ CompareTo b c < 0 -> CompareTo a c < 0).
Proof.
  intros [(Ha1 & Ha2 & Ha3) Pa] [(Hb1 & Hb2 & Hb3) Pb] [(Hc1 & Hc2 & Hc3) Pc].
  pose proof (comparePreReleases_trans _ _ _ Pa Pb Pc) as T. cbv zeta in T.
  unfold CompareTo.
  rewrite (sub_exact (major a) (major b)), (sub_exact (major b) (major c)),
    (sub_exact (major a) (major c)), (sub_exact (minor a) (minor b)),
    (sub_exact (minor b) (minor c)), (sub_exact (minor a) (minor c)),
    (sub_exact (patch a) (patch b)), (sub_exact (patch b) (patch c)),
    (sub_exact (patch a) (patch c)) by assumption.
  repeat match goal with
         | |- context [?x =? ?y] => destruct (Z.eqb_spec x y)
         end; lia.
Qed.

Lemma comparePreReleasesLoop_prefix (l : list segment) :
  forall s1 s2 a b,
    comparePreReleasesLoop s1 s2 (l ++ a)%list (l ++ b)%list
    = comparePreReleasesLoop s1 s2 a b.
Proof.
  induction l as [|x l IH]; intros s1 s2 a b; [reflexivity|].
  simpl. destruct x as [i|s].
  - rewrite sub_diag. simpl. apply IH.
  - rewrite (proj2 (Compare_zero_iff s s) eq_refl). simpl. apply IH.
Qed.

(** X6. The precedence of pre-releases that share the segments [l]: the
    one that stops there is below the one that goes on; a number is below
    a text; two numbers go by their values and two texts by the order of
    their bytes, whatever follows. *)
Theorem comparePreReleases_precedence (l r1 r2 : list segment) :
  (forall x, Z.of_nat (List.length (l ++ x :: r2)%list) <= Go.MaxInt64 ->
             comparePreReleases (Some l) (Some (l ++ x :: r2)%list) < 0) /\
  (forall i s,
      comparePreReleases (Some (l ++ SInt i :: r1)%list) (Some (l ++ SStr s :: r2)%list) < 0) /\
  (forall i j, 0 <= i -> i < j -> j <= Go.MaxInt64 ->
      comparePreReleases (Some (l ++ SInt i :: r1)%list) (Some (l ++ SInt j :: r2)%list) < 0) /\
  (forall s t, Go.Compare s t < 0 ->
      comparePreReleases (Some (l ++ SStr s :: r1)%list) (Some (l ++ SStr t :: r2)%list) < 0).
Proof.
  repeat split.
  - intros x B. unfold comparePreReleases.
    pose proof (comparePreReleasesLoop_prefix l (Z.of_nat (List.length l))
                  (Z.of_nat (List.length (l ++ x :: r2)%list)) [] (x :: r2)) as E.
    rewrite app_nil_r in E. rewrite E. clear E.
    rewrite length_app in *. simpl in *.
    rewrite sub_exact by lia. lia.
  - intros i s. unfold comparePreReleases.
    rewrite comparePreReleasesLoop_prefix. simpl. lia.
  - intros i j Hi Hij Hj. unfold comparePreReleases.
    rewrite comparePreReleasesLoop_prefix. simpl.
    rewrite sub_exact by lia.
    destruct (Z.eqb_spec (i - j) 0); simpl; lia.
  - intros s t Hst. unfold comparePreReleases.
    rewrite comparePreReleasesLoop_prefix. simpl.
    destruct (Z.eqb_spec (Go.Compare s t) 0); simpl; lia.
Qed.

End Order.

(** ** Numbers as decimal text *)

Section DecimalText.

Ltac digit_step :=
  cbn [NilEmpty.string_of_uint Go.digits Go.span String.append];
  match goal with
  | |- context [Go.isDigit ?c] => change (Go.isDigit c) with true
  end;
  cbv iota;
  repeat match goal with
    | |- context [Z.of_N (N_of_ascii ?c)] =>
        let v := eval vm_compute in (Z.of_N (N_of_ascii c)) in
        change (Z.of_N (N_of_ascii c)) with v
    end.

Lemma append_empty_r (s : string) : s ++ "" = s.
Proof. induction s; simpl; [reflexivity | now rewrite IHs]. Qed.

Lemma append_assoc (s t u : string) : (s ++ t) ++ u = s ++ (t ++ u).
Proof. induction s; simpl; [reflexivity | now rewrite IHs]. Qed.

Lemma digits_uint_acc (d : Decimal.uint) :
  forall acc : positive,
    Go.digits (Zpos acc) (NilEmpty.string_of_uint d)
    = Some (Zpos (Pos.of_uint_acc d acc)).
Proof.
  induction d; intros acc; [reflexivity| ..];
    digit_step; cbn [Pos.of_uint_acc]; rewrite <- IHd; f_equal; lia.
Qed.

Lemma digits_uint (d : Decimal.uint) :
  Go.digits 0 (NilEmpty.string_of_uint d) = Some (Z.of_N (Pos.of_uint d)).
Proof.
  induction d; [reflexivity| ..]; digit_step; cbn [Pos.of_uint];
    try exact IHd; cbn [Z.of_N]; rewrite <- digits_uint_acc; reflexivity.
Qed.

Lemma span_uint (d : Decimal.uint) (rest : string) :
  Go.span Go.isDigit (NilEmpty.string_of_uint d ++ rest)
  = (NilEmpty.string_of_uint d ++ fst (Go.span Go.isDigit rest),
     snd (Go.span Go.isDigit rest)).
Proof.
  induction d; [simpl; now destruct (Go.span Go.isDigit rest)| ..];
    digit_step; rewrite IHd; reflexivity.
Qed.

(** The decimal digits of a positive number do not start with 0. *)
Lemma to_uint_head (p : positive) :
  exists c r,
    NilEmpty.string_of_uint (Pos.to_uint p)
    = String c (NilEmpty.string_of_uint r) /\
    Go.isDigit19 c = true.
Proof.
  assert (N : Decimal.unorm (Pos.to_uint p) = Pos.to_uint p).
  { rewrite <- (DecimalPos.Unsigned.to_of (Pos.to_uint p)), DecimalPos.Unsigned.of_to. reflexivity. }
  pose proof (DecimalPos.Unsigned.to_uint_nonzero p) as Z.
  destruct (Pos.to_uint p) as [|d|d|d|d|d|d|d|d|d|d] eqn:E;
    try (eexists; eexists; split; [reflexivity | reflexivity]).
  - now apply DecimalPos.Unsigned.to_uint_nonnil in E.
  - exfalso. unfold Decimal.unorm in N. cbn [Decimal.nzhead] in N.
    destruct (Decimal.nzhead d) eqn:H; try (injection N as N; now subst);
      pose proof (DecimalFacts.nb_digits_nzhead d) as L; rewrite H, N in L; simpl in L; lia.
Qed.

Lemma itoa_pos (p : positive) :
  Go.itoa (Zpos p) = NilEmpty.string_of_uint (Pos.to_uint p).
Proof.
  unfold Go.itoa. cbn [Z.to_int NilZero.string_of_int NilZero.string_of_uint].
  destruct (Pos.to_uint p) eqn:E; try reflexivity.
  now apply DecimalPos.Unsigned.to_uint_nonnil in E.
Qed.

(** [strconv.ParseInt] reads back what [%d] writes. *)
Lemma ParseInt_itoa (z : Z) :
  0 <= z <= Go.MaxInt64 -> Go.ParseInt (Go.itoa z) = (z, None).
Proof.
  intros [Hz Hmax]. destruct z as [|p|p]; [reflexivity| |lia].
  rewrite itoa_pos.
  destruct (to_uint_head p) as (c & r & E & Hc).
  assert (M : Go.magnitude (NilEmpty.string_of_uint (Pos.to_uint p)) = Some (Zpos p)).
  { rewrite E. unfold Go.magnitude. rewrite <- E, digits_uint, DecimalPos.Unsigned.of_to.
    reflexivity. }
  unfold Go.ParseInt.
  assert (S : match NilEmpty.string_of_uint (Pos.to_uint p) with
              | String "+" r0 => (false, r0)
              | String "-" r0 => (true, r0)
              | _ => (false, NilEmpty.string_of_uint (Pos.to_uint p))
              end = (false, NilEmpty.string_of_uint (Pos.to_uint p))).
  { rewrite E.
    destruct c as [[] [] [] [] [] [] [] []]; try reflexivity; discriminate. }
  rewrite S, M. cbn [negb andb]. unfold Go.MaxInt64 in Hmax.
  destruct (Z.leb_spec (2 ^ 63) (Zpos p)); [lia | reflexivity].
Qed.

Lemma isDigit19_not_wild (c : ascii) :
  Go.isDigit19 c = true ->
  Go.isDigit c = true /\ (c =? "0")%char = false /\
  (c =? "x")%char || (c =? "X")%char || (c =? "*")%char = false /\
  isOpChar c = false /\ Go.isSpace c = false /\ (c =? "|")%char = false.
Proof.
  destruct c as [[] [] [] [] [] [] [] []]; try discriminate; intros _;
    repeat split; reflexivity.
Qed.

(** [vNR] reads a written number up to a byte that is not a digit. *)
Lemma matchNR_itoa (z : Z) (rest : string) :
  0 <= z -> Go.span Go.isDigit rest = ("", rest) ->
  matchNR (Go.itoa z ++ rest) = Some (Go.itoa z, rest) /\
  matchXR (Go.itoa z ++ rest) = Some (Go.itoa z, rest).
Proof.
  intros Hz Hr. destruct z as [|p|p]; [split; reflexivity| |lia].
  rewrite itoa_pos. destruct (to_uint_head p) as (c & r & E & Hc).
  rewrite E. cbn [String.append]. unfold matchXR, matchNR.
  destruct (isDigit19_not_wild c Hc) as (_ & H0 & Hw & _).
  rewrite Hw, H0, Hc, span_uint, Hr. simpl. rewrite append_empty_r.
  split; reflexivity.
Qed.

Lemma versionToString_v3 (a b c : Z) :
  versionToString (v3 a b c)
  = Go.itoa a ++ String "." (Go.itoa b ++ String "." (Go.itoa c)).
Proof.
  unfold versionToString, v3. cbn [major minor patch preRelease build].
  cbn [String.append]. now rewrite append_empty_r.
Qed.

Lemma span_dot (rest : string) :
  Go.span Go.isDigit (String "." rest) = ("", String "." rest).
Proof. reflexivity. Qed.

Lemma VersionPattern_v3 (a b c : Z) :
  0 <= a -> 0 <= b -> 0 <= c ->
  VersionPattern (versionToString (v3 a b c))
  = Some [versionToString (v3 a b c); Go.itoa a; Go.itoa b; Go.itoa c; ""; ""].
Proof.
  intros Ha Hb Hc. rewrite versionToString_v3. unfold VersionPattern.
  rewrite (proj1 (matchNR_itoa a _ Ha (span_dot _))).
  rewrite (proj1 (matchNR_itoa b _ Hb (span_dot _))).
  pose proof (proj1 (matchNR_itoa c "" Hc eq_refl)) as E.
  rewrite append_empty_r in E. rewrite E. reflexivity.
Qed.

(** X7. A stable version without build whose numbers are in range is
    read back by [ParseVersion] from the text [ToString] writes. *)
Theorem ParseVersion_versionToString (a b c : Z) :
  0 <= a <= Go.MaxInt64 -> 0 <= b <= Go.MaxInt64 -> 0 <= c <= Go.MaxInt64 ->
  ParseVersion (versionToString (v3 a b c)) = Ok (v3 a b c).
Proof.
  intros Ha Hb Hc. unfold ParseVersion.
  rewrite VersionPattern_v3 by lia. unfold group, Go.Atoi. cbn [nth].
  rewrite !ParseInt_itoa by assumption. cbn [fst].
  apply NewVersion3_plain; lia.
Qed.

Lemma everyChar_app (p : ascii -> bool) (s t : string) :
  everyChar p (s ++ t) = everyChar p s && everyChar p t.
Proof.
  induction s as [|c s IH]; simpl; [reflexivity|].
  now rewrite IH, andb_assoc.
Qed.

Lemma everyChar_uint (d : Decimal.uint) :
  everyChar termChar (NilEmpty.string_of_uint d) = true.
Proof. induction d; simpl; [reflexivity | assumption ..]. Qed.

Lemma everyChar_itoa (z : Z) : 0 <= z -> everyChar termChar (Go.itoa z) = true.
Proof.
  intros Hz. destruct z as [|p|p]; [reflexivity| |lia].
  rewrite itoa_pos. apply everyChar_uint.
Qed.

Lemma itoa_head (z : Z) :
  0 <= z -> exists c r, Go.itoa z = String c r /\ Go.isDigit c = true.
Proof.
  intros Hz. destruct z as [|p|p]; [eexists; eexists; split; reflexivity| |lia].
  rewrite itoa_pos. destruct (to_uint_head p) as (c & r & E & Hc).
  exists c, (NilEmpty.string_of_uint r). split; [assumption|].
  now apply isDigit19_not_wild.
Qed.

Lemma isDigit_not_wild (c : ascii) :
  Go.isDigit c = true ->
  (c =? "x")%char = false /\ (c =? "X")%char = false /\
  (c =? "*")%char = false /\ isOpChar c = false.
Proof.
  destruct c as [[] [] [] [] [] [] [] []]; try discriminate; intros _;
    repeat split; reflexivity.
Qed.

Lemma xDigit_itoa (z : Z) :
  0 <= z <= Go.MaxInt64 -> xDigit (Go.itoa z) = Ok (z, true).
Proof.
  intros Hz. unfold xDigit. rewrite ParseInt_itoa by assumption.
  destruct (itoa_head z (proj1 Hz)) as (c & r & -> & Hc).
  destruct (isDigit_not_wild c Hc) as (Hx & HX & Hs & _).
  cbn [String.eqb]. rewrite Hx, HX, Hs. reflexivity.
Qed.

Lemma opWsFree_every (s : string) :
  everyChar termChar s = true -> opWsFree s = true.
Proof.
  induction s as [|c r IH]; simpl; [reflexivity|].
  intros H. apply andb_true_iff in H as [_ Hr].
  rewrite (IH Hr), andb_true_r.
  destruct (isOpChar c); [|reflexivity].
  destruct r as [|d r']; [reflexivity|].
  simpl in Hr. apply andb_true_iff in Hr as [Hd _]. unfold termChar in Hd.
  destruct (Go.isSpace d), (d =? "v")%char, (d =? "|")%char; simpl in *;
    congruence.
Qed.

Lemma orSplitLoop_every (s : string) :
  everyChar termChar s = true ->
  forall cur, orSplitLoop false cur "" s = [cur ++ s].
Proof.
  induction s as [|c r IH]; intros H cur; simpl; [reflexivity|].
  simpl in H. apply andb_true_iff in H as [Hc Hr]. unfold termChar in Hc.
  destruct (Go.isSpace c); [discriminate|].
  destruct (c =? "|")%char; [discriminate|].
  rewrite (IH Hr). cbn [String.append]. now rewrite append_assoc.
Qed.

Lemma simpleSplitLoop_every (s : string) :
  everyChar termChar s = true ->
  forall cur, simpleSplitLoop false cur s = [cur ++ s].
Proof.
  induction s as [|c r IH]; intros H cur; simpl;
    [now rewrite append_empty_r|].
  simpl in H. apply andb_true_iff in H as [Hc Hr]. unfold termChar in Hc.
  destruct (Go.isSpace c); [discriminate|].
  rewrite (IH Hr). now rewrite append_assoc.
Qed.

Lemma fullPartial_v3 (a b c : Z) :
  0 <= a -> 0 <= b -> 0 <= c ->
  fullPartial (versionToString (v3 a b c))
  = Some [Go.itoa a; Go.itoa b; Go.itoa c; ""; ""].
Proof.
  intros Ha Hb Hc. rewrite versionToString_v3. unfold fullPartial, matchPartial.
  rewrite (proj2 (matchNR_itoa a _ Ha (span_dot _))).
  rewrite (proj2 (matchNR_itoa b _ Hb (span_dot _))).
  pose proof (proj2 (matchNR_itoa c "" Hc eq_refl)) as E.
  rewrite append_empty_r in E. rewrite E. reflexivity.
Qed.

Lemma everyChar_v3 (a b c : Z) :
  0 <= a -> 0 <= b -> 0 <= c ->
  everyChar termChar (versionToString (v3 a b c)) = true.
Proof.
  intros Ha Hb Hc. rewrite versionToString_v3.
  rewrite everyChar_app. cbn [everyChar]. rewrite everyChar_app. cbn [everyChar].
  rewrite !everyChar_itoa by assumption. reflexivity.
Qed.

(** The groups of the term [op v] make the comparator [bd]. *)
Lemma createRange_v3 (whole op : string) (a b c : Z) (bd : abstractRange) :
  0 <= a <= Go.MaxInt64 -> 0 <= b <= Go.MaxInt64 -> 0 <= c <= Go.MaxInt64 ->
  (op = "" /\ bd = eqRange (v3 a b c)) \/
  (op = ">" /\ bd = gtRange (v3 a b c)) \/
  (op = ">=" /\ bd = gtEqRange (v3 a b c)) \/
  (op = "<" /\ bd = ltRange (v3 a b c)) \/
  (op = "<=" /\ bd = ltEqRange (v3 a b c)) ->
  createRange [whole; op; Go.itoa a; Go.itoa b; Go.itoa c; ""; ""] = Ok bd.
Proof.
  intros Ha Hb Hc H.
  destruct H as [[-> ->]|[[-> ->]|[[-> ->]|[[-> ->]|[-> ->]]]]];
    unfold createRange, group; cbn [nth String.eqb Ascii.eqb Bool.eqb orb];
    cbv iota;
    unfold createXRange, allowPatchUpdates, createGtRange, createGtEqRange,
      createLtRange, createLtEqRange, group; cbn [nth];
    rewrite !xDigit_itoa by assumption; cbn [bind negb];
    rewrite NewVersion3_plain by lia; reflexivity.
Qed.

(** X8. The text of a comparator on a stable version without build,
    with numbers in range, is read back by [ParseVersionRange] as the
    range of that one comparator. *)
Theorem ParseVersionRange_boundToString (a b c : Z) (bd : abstractRange) :
  0 <= a <= Go.MaxInt64 -> 0 <= b <= Go.MaxInt64 -> 0 <= c <= Go.MaxInt64 ->
  comparator bd (v3 a b c) ->
  ParseVersionRange (boundToString bd)
  = Ok (Some (mkRange (boundToString bd) [bd])).
Proof.
  intros Ha Hb Hc H.
  pose proof (everyChar_v3 a b c (proj1 Ha) (proj1 Hb) (proj1 Hc)) as Ev.
  pose proof (fullPartial_v3 a b c (proj1 Ha) (proj1 Hb) (proj1 Hc)) as Fp.
  set (vt := versionToString (v3 a b c)) in *.
  assert (T : exists op,
             boundToString bd = op ++ vt /\
             everyChar termChar (op ++ vt) = true /\
             op ++ vt <> "" /\
             hyphenPattern (op ++ vt) = None /\
             simplePattern (op ++ vt)
             = Some [op ++ vt; op; Go.itoa a; Go.itoa b; Go.itoa c; ""; ""] /\
             createRange [op ++ vt; op; Go.itoa a; Go.itoa b; Go.itoa c; ""; ""]
             = Ok bd).
  { destruct (itoa_head a (proj1 Ha)) as (c0 & r0 & E0 & D0).
    assert (V : exists r, vt = String c0 r).
    { subst vt. rewrite versionToString_v3, E0. eexists. reflexivity. }
    destruct V as (r & V).
    destruct (isDigit_not_wild c0 D0) as (_ & _ & _ & Hop).
    destruct H as [->|[->|[->|[->| ->]]]].
    - exists "". cbn [boundToString String.append]. fold vt.
      repeat split; try assumption.
      + rewrite V. discriminate.
      + unfold hyphenPattern. unfold fullPartial in Fp.
        destruct (matchPartial vt) as [[gs rest]|]; [|reflexivity].
        destruct rest; [reflexivity | discriminate].
      + rewrite V in *. unfold simplePattern. rewrite Hop, Fp. reflexivity.
      + apply createRange_v3; auto.
    - exists ">". cbn [boundToString String.append]. fold vt.
      repeat split; try assumption; try discriminate.
      + unfold simplePattern. cbn [isOpChar Ascii.eqb Bool.eqb orb].
        rewrite Fp. reflexivity.
      + apply createRange_v3; auto.
    - exists ">=". cbn [boundToString String.append]. fold vt.
      repeat split; try assumption; try discriminate.
      + unfold simplePattern. cbn [isOpChar isOp2 Ascii.eqb Bool.eqb orb andb].
        rewrite Fp. reflexivity.
      + apply createRange_v3; auto 6.
    - exists "<". cbn [boundToString String.append]. fold vt.
      repeat split; try assumption; try discriminate.
      + unfold simplePattern. cbn [isOpChar Ascii.eqb Bool.eqb orb].
        rewrite Fp. reflexivity.
      + apply createRange_v3; auto 6.
    - exists "<=". cbn [boundToString String.append]. fold vt.
      repeat split; try assumption; try discriminate.
      + unfold simplePattern. cbn [isOpChar isOp2 Ascii.eqb Bool.eqb orb andb].
        rewrite Fp. reflexivity.
      + apply createRange_v3; auto 7. }
  destruct T as (op & -> & Ec & Ne & Hh & Hs & Hr).
  unfold ParseVersionRange.
  destruct (String.eqb_spec (op ++ vt) "") as [|_]; [contradiction|].
  rewrite (opWsReplaceAll_free _ (opWsFree_every _ Ec)).
  unfold orSplit. rewrite (orSplitLoop_every _ Ec). cbn [String.append List.length Nat.eqb].
  cbn [parseAlternatives].
  destruct (String.eqb_spec (op ++ vt) "") as [|_]; [contradiction|].
  rewrite Hh. unfold simpleSplit. rewrite (simpleSplitLoop_every _ Ec).
  cbn [String.append parseSimples]. rewrite Hs, Hr. reflexivity.
Qed.

End DecimalText.

(** ** Making versions *)

Section Construction.

(** X9. [NewVersion3] looks at the numbers first, then at the
    pre-release, then at the build; when it succeeds the version has the
    numbers it was given, is stable exactly when the pre-release text is
    empty and has no build exactly when the build text is empty. *)
Theorem NewVersion3_outcome (a b c : Z) (p q : string) :
  (NewVersion3 a b c p q = Err NegativeNumbers <-> a < 0 \/ b < 0 \/ c < 0) /\
  (NewVersion3 a b c p q = Err (IllegalCharacters "pre-release") <->
   0 <= a /\ 0 <= b /\ 0 <= c /\ p <> "" /\ vPRPartsPattern p = false) /\
  (NewVersion3 a b c p q = Err (IllegalCharacters "build") <->
   0 <= a /\ 0 <= b /\ 0 <= c /\ (p = "" \/ vPRPartsPattern p = true) /\
   q <> "" /\ vPartsPattern q = false) /\
  (forall v, NewVersion3 a b c p q = Ok v ->
             major v = a /\ minor v = b /\ patch v = c /\
             0 <= a /\ 0 <= b /\ 0 <= c /\
             (IsStable v = true <-> p = "") /\
             (build v = None <-> q = "")).
Proof.
  unfold NewVersion3, splitParts, IsStable.
  destruct (Z.ltb_spec a 0), (Z.ltb_spec b 0), (Z.ltb_spec c 0);
    cbn [orb];
    try (repeat split; intros; try discriminate; try lia;
         repeat match goal with H : _ /\ _ |- _ => destruct H end; lia).
  destruct (String.eqb_spec p "") as [Ep|Ep], (String.eqb_spec q "") as [Eq|Eq];
    [| destruct (vPartsPattern q) eqn:Pq
     | destruct (vPRPartsPattern p) eqn:Pp
     | destruct (vPRPartsPattern p) eqn:Pp; [destruct (vPartsPattern q) eqn:Pq|]];
    cbn [negb bind];
    (repeat split; intros;
     repeat match goal with
       | H : _ /\ _ |- _ => destruct H
       | H : _ \/ _ |- _ => destruct H
       | H : Ok _ = Ok _ |- _ => injection H as <-
       end;
     cbn [major minor patch preRelease build] in *;
     try discriminate; try congruence; try lia; auto 10).
Qed.

Lemma ParseInt_value (s : string) :
  Go.MinInt64 <= fst (Go.ParseInt s) <= Go.MaxInt64.
Proof.
  destruct (Go.ParseInt s) as [i [e|]] eqn:E; [|now apply ParseInt_range in E].
  revert E. unfold Go.ParseInt.
  destruct (match s with
            | String "+" r => (false, r)
            | String "-" r => (true, r)
            | _ => (false, s)
            end) as [neg body].
  unfold Go.MinInt64, Go.MaxInt64.
  destruct (Go.magnitude body) as [un|];
    [|intros [= <- _]; simpl; lia].
  destruct (negb neg && (2 ^ 63 <=? un)); [intros [= <- _]; simpl; lia|].
  destruct (neg && (2 ^ 63 <? un)); [intros [= <- _]; simpl; lia|].
  discriminate.
Qed.

Lemma Split_nonempty (sep : ascii) (s : string) : Go.Split sep s <> [].
Proof.
  destruct s as [|c r]; simpl; [discriminate|].
  destruct (c =? sep)%char; [discriminate|].
  destruct (Go.Split sep r); discriminate.
Qed.

Lemma mungePart_in_int (part : string) : seg_in_int (mungePart part).
Proof.
  unfold mungePart. destruct (Go.ParseInt part) as [i [e|]] eqn:E; simpl; [exact I|].
  now apply ParseInt_range in E.
Qed.

Lemma splitParts_segments (tag str : string) (stringToInt : bool) (l : list segment) :
  splitParts tag str stringToInt = Ok (Some l) ->
  l <> [] /\ Forall seg_in_int l /\ (stringToInt = false -> Forall seg_is_text l).
Proof.
  unfold splitParts. destruct (str =? "")%string; [discriminate|].
  destruct (negb _); [discriminate|].
  intros [= <-]. pose proof (Split_nonempty "." str) as N.
  split; [|split].
  - destruct (Go.Split "." str); [contradiction | discriminate].
  - apply Forall_map, Forall_forall. intros x _.
    destruct stringToInt; [apply mungePart_in_int | exact I].
  - intros ->. apply Forall_map, Forall_forall. intros x _. exact I.
Qed.

(** X10. What [ParseVersion] accepts has three numbers between 0 and
    the largest [int]; its pre-release, if any, has a segment at least
    and only [int] numbers, and its build, if any, has a segment at least
    and texts only: no part of a build becomes a number. *)
Theorem ParseVersion_invariants (s : string) (v : version) :
  ParseVersion s = Ok v ->
  in_range v /\
  (forall l, preRelease v = Some l -> l <> [] /\ Forall seg_in_int l) /\
  (forall l, build v = Some l -> l <> [] /\ Forall seg_is_text l).
Proof.
  unfold ParseVersion. destruct (VersionPattern s) as [g|]; [|discriminate].
  unfold Go.Atoi.
  pose proof (ParseInt_value (group g 1)) as Ra.
  pose proof (ParseInt_value (group g 2)) as Rb.
  pose proof (ParseInt_value (group g 3)) as Rc.
  unfold NewVersion3.
  destruct (Z.ltb_spec (fst (Go.ParseInt (group g 1))) 0); [discriminate|].
  destruct (Z.ltb_spec (fst (Go.ParseInt (group g 2))) 0); [discriminate|].
  destruct (Z.ltb_spec (fst (Go.ParseInt (group g 3))) 0); [discriminate|].
  cbn [orb].
  destruct (splitParts "pre-release" (group g 4) true) as [ps|] eqn:Ps;
    [|discriminate].
  destruct (splitParts "build" (group g 5) false) as [bs|] eqn:Bs;
    [|discriminate].
  cbn [bind]. intros [= <-]. unfold in_range. cbn [major minor patch preRelease build].
  split; [repeat split; try assumption; lia|]. split.
  - intros l ->. apply splitParts_segments in Ps. tauto.
  - intros l ->. apply splitParts_segments in Bs. destruct Bs as (N & _ & T).
    split; [assumption | now apply T].
Qed.

End Construction.

(** ** The normal form of [newVersionRange] *)

Section NormalForm.

Lemma settled_snoc (l : list abstractRange) (x : abstractRange) :
  settled (l ++ [x])%list <->
  settled l /\ Forall (fun y => union x y = None) l.
Proof.
  unfold settled. induction l as [|a l IH]; simpl.
  - split; [intros _; split; constructor|].
    intros _. constructor; constructor.
  - split.
    + intros H. inversion H as [|a' l' Ha Hl]; subst.
      apply Forall_app in Ha as [Ha Hx]. apply IH in Hl as [Hl Hf].
      inversion Hx; subst.
      split; constructor; assumption.
    + intros [H Hf]. inversion H as [|a' l' Ha Hl]; subst.
      inversion Hf; subst. constructor.
      * apply Forall_app. split; [assumption|]. constructor; [assumption|constructor].
      * apply IH. split; assumption.
Qed.

Lemma settled_short (l : list abstractRange) :
  (List.length l <= 1)%nat -> settled l.
Proof.
  destruct l as [|a [|b l]]; simpl; intros H; try lia.
  - constructor.
  - constructor; constructor.
Qed.

(** A turn of the loop [for len(ranges) > 1] on a list that ends in [x]. *)
Lemma mergePass_snoc (fuel : nat) (l : list abstractRange) (x : abstractRange)
  (result : list abstractRange) (mh : bool) :
  l <> [] ->
  mergePass (S fuel) (l ++ [x])%list result mh
  = let '(x1, unmerged, mh1) := mergeInto x l [] mh in
    mergePass fuel unmerged (x1 :: result) mh1.
Proof.
  intros Hl. cbn [mergePass]. rewrite length_app. cbn [List.length].
  replace (List.length l + 1 - 1)%nat with (List.length l) by lia.
  assert (L : (1 <? List.length l + 1)%nat = true).
  { apply Nat.ltb_lt. destruct l; [contradiction | simpl; lia]. }
  rewrite L, nth_error_app2 by lia. rewrite Nat.sub_diag. cbn [nth_error].
  rewrite firstn_app, Nat.sub_diag, firstn_all. cbn [firstn].
  now rewrite app_nil_r.
Qed.

Lemma mergeInto_merged (ys : list abstractRange) :
  forall x unmerged x' unmerged' mh',
    mergeInto x ys unmerged true = (x', unmerged', mh') -> mh' = true.
Proof.
  induction ys as [|y ys IH]; simpl; intros x un x' un' mh' H.
  - now injection H as _ _ <-.
  - destruct (union x y); eapply IH; eassumption.
Qed.

Lemma mergePass_merged (fuel : nat) :
  forall ranges result ranges' result' mh',
    mergePass fuel ranges result true = (ranges', result', mh') -> mh' = true.
Proof.
  induction fuel as [|fuel IH]; simpl; intros rs res rs' res' mh' H.
  - now injection H as _ _ <-.
  - destruct (1 <? List.length rs)%nat; [|now injection H as _ _ <-].
    destruct (nth_error rs (List.length rs - 1)) as [x|];
      [|now injection H as _ _ <-].
    destruct (mergeInto x (firstn (List.length rs - 1) rs) [] true)
      as [[x1 un] mh1] eqn:Hm.
    apply mergeInto_merged in Hm as ->. eapply IH; eassumption.
Qed.

(** A turn of the innermost loop in which nothing is merged. *)
Lemma mergeInto_quiet (ys : list abstractRange) :
  forall x unmerged mh x' unmerged',
    mergeInto x ys unmerged mh = (x', unmerged', false) <->
    mh = false /\ x' = x /\ unmerged' = (unmerged ++ ys)%list /\
    Forall (fun y => union x y = None) ys.
Proof.
  induction ys as [|y ys IH]; simpl; intros x un mh x' un'.
  - rewrite app_nil_r. split.
    + intros [= <- <- ->]. repeat split; constructor.
    + intros (-> & -> & -> & _). reflexivity.
  - destruct (union x y) as [m|] eqn:U.
    + split.
      * intros H. apply mergeInto_merged in H. discriminate.
      * intros (_ & _ & _ & F). inversion F; congruence.
    + rewrite IH, <- app_assoc. cbn [app]. split.
      * intros (-> & -> & -> & F). repeat split; try reflexivity.
        constructor; assumption.
      * intros (-> & -> & -> & F). repeat split; try reflexivity.
        now inversion F.
Qed.

(** A pass in which nothing is merged leaves the list as it is, and
    there is such a pass exactly on a settled list. *)
Lemma mergePass_quiet (fuel : nat) :
  forall ranges result ranges' result',
    (List.length ranges <= fuel)%nat ->
    mergePass fuel ranges result false = (ranges', result', false) ->
    (ranges' ++ result' = ranges ++ result)%list /\ settled ranges.
Proof.
  induction fuel as [|fuel IH]; intros rs res rs' res' Hlen H.
  - simpl in H. injection H as <- <-. split; [reflexivity|].
    apply settled_short. lia.
  - destruct (Nat.le_gt_cases (List.length rs) 1) as [Hle|Hgt].
    + simpl in H. apply Nat.ltb_ge in Hle. rewrite Hle in H.
      injection H as <- <-. split; [reflexivity|].
      apply settled_short. now apply Nat.ltb_ge.
    + destruct (exists_last (l := rs)) as (l & x & ->);
        [destruct rs; [simpl in Hgt; lia | discriminate]|].
      rewrite length_app in Hlen, Hgt. simpl in Hlen, Hgt.
      rewrite mergePass_snoc in H by (destruct l; [simpl in Hgt; lia | discriminate]).
      destruct (mergeInto x l [] false) as [[x1 un] mh1] eqn:Hm.
      destruct mh1; [apply mergePass_merged in H; discriminate|].
      apply mergeInto_quiet in Hm as (_ & -> & -> & F). cbn [app] in H.
      apply IH in H as [E S]; [|lia].
      split; [now rewrite E, <- app_assoc|].
      apply settled_snoc. split; assumption.
Qed.

Lemma mergePass_settled (fuel : nat) :
  forall ranges result,
    (List.length ranges <= fuel)%nat -> settled ranges ->
    exists ranges' result',
      mergePass fuel ranges result false = (ranges', result', false) /\
      (ranges' ++ result' = ranges ++ result)%list.
Proof.
  induction fuel as [|fuel IH]; intros rs res Hlen S.
  - exists rs, res. split; reflexivity.
  - destruct (Nat.le_gt_cases (List.length rs) 1) as [Hle|Hgt].
    + exists rs, res. simpl. apply Nat.ltb_ge in Hle. rewrite Hle.
      split; reflexivity.
    + destruct (exists_last (l := rs)) as (l & x & ->);
        [destruct rs; [simpl in Hgt; lia | discriminate]|].
      rewrite length_app in Hlen, Hgt. simpl in Hlen, Hgt.
      rewrite mergePass_snoc by (destruct l; [simpl in Hgt; lia | discriminate]).
      apply settled_snoc in S as [S F].
      assert (Hm : mergeInto x l [] false = (x, l, false)).
      { apply mergeInto_quiet. repeat split; assumption. }
      rewrite Hm. destruct (IH l (x :: res)) as (rs' & res' & E1 & E2);
        [lia | assumption|].
      exists rs', res'. split; [assumption|].
      now rewrite E2, <- app_assoc.
Qed.

Lemma normalize_settled (fuel : nat) :
  forall ranges mh,
    (List.length ranges <= fuel)%nat ->
    (mh = false -> settled ranges) ->
    settled (normalize fuel ranges mh).
Proof.
  induction fuel as [|fuel IH]; intros rs mh Hlen Hs.
  - simpl. apply settled_short. lia.
  - cbn [normalize].
    destruct (Nat.ltb_spec 1 (List.length rs)) as [Hgt|Hle];
      [|cbn [andb]; apply settled_short; lia].
    destruct mh; cbn [andb]; [|now apply Hs].
    destruct (mergePass (List.length rs) rs [] false) as [[rs' res'] mh'] eqn:Hp.
    destruct mh'.
    + apply mergePass_spec in Hp as (_ & _ & H3 & _); [|lia].
      destruct (H3 eq_refl) as [C|Hlt]; [discriminate|]. simpl in Hlt.
      apply IH; [|discriminate].
      destruct (0 <? List.length rs')%nat; rewrite ?length_app; lia.
    + rewrite normalize_false.
      apply mergePass_quiet in Hp as [E S]; [|lia]. rewrite app_nil_r in E.
      destruct (Nat.ltb_spec 0 (List.length rs')) as [_|Hz]; [now rewrite E|].
      destruct rs'; [|simpl in Hz; lia]. simpl in E. now rewrite E.
Qed.

Lemma normalize_length (fuel : nat) :
  forall ranges mh,
    (List.length (normalize fuel ranges mh) <= List.length ranges)%nat.
Proof.
  induction fuel as [|fuel IH]; intros rs mh; simpl; [lia|].
  destruct ((1 <? List.length rs)%nat && mh); [|lia].
  destruct (mergePass (List.length rs) rs [] false) as [[rs' res'] mh'] eqn:Hp.
  apply mergePass_spec in Hp as (_ & H2 & _); [|lia]. simpl in H2.
  etransitivity; [apply IH|].
  destruct (0 <? List.length rs')%nat; rewrite ?length_app; lia.
Qed.

(** X11. The range that [newVersionRange] makes has an alternative at
    least and never more than it was given; no alternative can be united
    with one that stands before it; it keeps the text [vr] unless it was
    given no alternative, when it is [MatchNone]. *)
Theorem newVersionRange_normal_form (vr : string) (rs : list abstractRange) :
  ranges (newVersionRange vr rs) <> [] /\
  (List.length (ranges (newVersionRange vr rs)) <= Nat.max 1 (List.length rs))%nat /\
  settled (ranges (newVersionRange vr rs)) /\
  (rs <> [] -> originalString (newVersionRange vr rs) = vr) /\
  (rs = [] -> newVersionRange vr rs = MatchNone).
Proof.
  unfold newVersionRange.
  pose proof (normalize_length (List.length rs) rs true) as L.
  pose proof (normalize_settled (List.length rs) rs true (le_n _)) as S.
  pose proof (normalize_nonempty (List.length rs) rs true) as N.
  destruct (normalize (List.length rs) rs true) as [|b l] eqn:E.
  - cbn [List.length Nat.eqb]. unfold MatchNone. cbn [ranges List.length].
    split; [discriminate|]. split; [lia|].
    split; [apply settled_short; simpl; lia|].
    split; [intros H; now apply N in H | reflexivity].
  - cbn [List.length Nat.eqb ranges originalString].
    split; [discriminate|]. split; [simpl in L; lia|].
    split; [apply S; discriminate|].
    split; [reflexivity|]. intros ->. discriminate.
Qed.

(** X12. A list of alternatives that is not empty and in which none can
    be united with one before it is kept as it is: [newVersionRange]
    changes nothing when it is given the alternatives of a range that it
    made. *)
Theorem newVersionRange_settled (vr : string) (rs : list abstractRange) :
  rs <> [] -> settled rs -> newVersionRange vr rs = mkRange vr rs.
Proof.
  intros N Hs. unfold newVersionRange.
  assert (E : normalize (List.length rs) rs true = rs).
  { destruct rs as [|a l]; [contradiction|].
    cbn [List.length normalize].
    destruct (Nat.ltb_spec 1 (S (List.length l))) as [Hgt|Hle];
      [|reflexivity].
    cbn [andb].
    destruct (mergePass_settled (S (List.length l)) (a :: l) [] (le_n _) Hs)
      as (rs' & res' & E1 & E2).
    cbn [List.length] in E1. rewrite E1, normalize_false.
    rewrite app_nil_r in E2.
    destruct (Nat.ltb_spec 0 (List.length rs')) as [_|Hz]; [assumption|].
    destruct rs'; [|simpl in Hz; lia]. assumption. }
  rewrite E. destruct rs; [contradiction | reflexivity].
Qed.

End NormalForm.

(** ** What the ranges of the package include *)

Section Membership.

Lemma CompareTo_Min_stable (v : version) :
  in_range v -> IsStable v = true -> CompareTo Min v <= 0.
Proof.
  intros (Ha & Hb & Hc) Hs. unfold IsStable in Hs.
  destruct (preRelease v) eqn:P; [discriminate|].
  unfold CompareTo, Min, minPrereleases. cbn [major minor patch preRelease].
  rewrite P, !sub_exact by (unfold Go.MaxInt64 in *; lia).
  destruct (Z.eqb_spec (0 - major v) 0); [|lia].
  destruct (Z.eqb_spec (0 - minor v) 0); [|lia].
  destruct (Z.eqb_spec (0 - patch v) 0); [|lia].
  simpl. lia.
Qed.

Lemma CompareTo_Max_above (v : version) : in_range v -> 0 <= CompareTo Max v.
Proof.
  intros (Ha & Hb & Hc).
  unfold CompareTo, Max. cbn [major minor patch preRelease].
  rewrite !sub_exact by (unfold Go.MaxInt64 in *; lia).
  destruct (Z.eqb_spec (Go.MaxInt64 - major v) 0); [|lia].
  destruct (Z.eqb_spec (Go.MaxInt64 - minor v) 0); [|lia].
  destruct (Z.eqb_spec (Go.MaxInt64 - patch v) 0); [|lia].
  destruct (preRelease v); simpl; lia.
Qed.

(** A version in range that is below [Min] is below every stable one. *)
Lemma below_Min (s v : version) :
  in_range s -> 0 < CompareTo Min s ->
  in_range v -> IsStable v = true -> CompareTo s v < 0.
Proof.
  intros (Ha & Hb & Hc) H (Ha' & Hb' & Hc') Hs. unfold IsStable in Hs.
  destruct (preRelease v) eqn:P; [discriminate|].
  assert (Z : major s = 0 /\ minor s = 0 /\ patch s = 0 /\ preRelease s <> None).
  { revert H. unfold CompareTo, Min, minPrereleases.
    cbn [major minor patch preRelease].
    rewrite !sub_exact by (unfold Go.MaxInt64 in *; lia).
    destruct (Z.eqb_spec (0 - major s) 0); [|lia].
    destruct (Z.eqb_spec (0 - minor s) 0); [|lia].
    destruct (Z.eqb_spec (0 - patch s) 0); [|lia].
    destruct (preRelease s); simpl; intros H;
      [repeat split; try lia; discriminate | lia]. }
  destruct Z as (Ea & Eb & Ec & Ep).
  unfold CompareTo. rewrite Ea, Eb, Ec, P.
  rewrite !sub_exact by (unfold Go.MaxInt64 in *; lia).
  destruct (Z.eqb_spec (0 - major v) 0); [|lia].
  destruct (Z.eqb_spec (0 - minor v) 0); [|lia].
  destruct (Z.eqb_spec (0 - patch v) 0); [|lia].
  destruct (preRelease s); [simpl; lia | contradiction].
Qed.

(** A version in range that compares equal to [Max] is not below any
    version in range. *)
Lemma equal_Max (e v : version) :
  in_range e -> CompareTo e Max = 0 -> in_range v -> 0 <= CompareTo e v.
Proof.
  intros (Ha & Hb & Hc) H (Ha' & Hb' & Hc').
  assert (Z : major e = Go.MaxInt64 /\ minor e = Go.MaxInt64 /\
              patch e = Go.MaxInt64 /\ preRelease e = None).
  { revert H. unfold CompareTo, Max. cbn [major minor patch preRelease].
    rewrite !sub_exact by (unfold Go.MaxInt64 in *; lia).
    destruct (Z.eqb_spec (major e - Go.MaxInt64) 0); [|lia].
    destruct (Z.eqb_spec (minor e - Go.MaxInt64) 0); [|lia].
    destruct (Z.eqb_spec (patch e - Go.MaxInt64) 0); [|lia].
    destruct (preRelease e); simpl; intros H;
      [lia | repeat split; lia]. }
  destruct Z as (Ea & Eb & Ec & Ep).
  unfold CompareTo. rewrite Ea, Eb, Ec, Ep.
  rewrite !sub_exact by (unfold Go.MaxInt64 in *; lia).
  destruct (Z.eqb_spec (Go.MaxInt64 - major v) 0); [|lia].
  destruct (Z.eqb_spec (Go.MaxInt64 - minor v) 0); [|lia].
  destruct (Z.eqb_spec (Go.MaxInt64 - patch v) 0); [|lia].
  destruct (preRelease v); simpl; lia.
Qed.

(** X13. [MatchAll] includes a version in range exactly when it is
    stable, and [MatchNone] includes none. *)
Theorem Includes_MatchAll_MatchNone (v : version) :
  in_range v ->
  Includes MatchAll (Some v) = IsStable v /\
  Includes MatchNone (Some v) = false.
Proof.
  intros R. unfold Includes, MatchAll, MatchNone, lowestLb, lowestUb.
  cbn [ranges existsb includes testPrerelease].
  replace (IsStable Min) with true by reflexivity.
  cbn [negb andb]. rewrite !orb_false_r.
  destruct (IsStable v) eqn:S; [|now rewrite !andb_false_r].
  pose proof (CompareTo_Min_stable v R S) as H. rewrite !andb_true_r.
  split; [apply Z.leb_le; assumption|].
  rewrite Z.gtb_ltb. apply Z.ltb_ge. assumption.
Qed.

(** X14. The range of [ExactVersionRange v] includes a well-formed
    version exactly when it has the numbers and the pre-release of [v]:
    the build is not looked at. *)
Theorem Includes_ExactVersionRange (v w : version) :
  well_formed v -> well_formed w ->
  (Includes (ExactVersionRange v) (Some w) = true <->
   major v = major w /\ minor v = minor w /\ patch v = patch w /\
   preRelease v = preRelease w).
Proof.
  intros Wv Ww. unfold Includes, ExactVersionRange.
  cbn [ranges existsb includes testPrerelease]. rewrite orb_false_r.
  rewrite andb_true_iff, Z.eqb_eq, (CompareTo_zero_fields v w Wv Ww).
  split; [tauto|]. intros H. split; [assumption|].
  destruct H as (Ea & Eb & Ec & Ep).
  unfold IsStable, TripletEquals, tripletEquals. rewrite Ea, Eb, Ec, Ep, !Z.eqb_refl.
  destruct (preRelease w); reflexivity.
Qed.

(** X15. [Equals] is [CompareTo] giving zero together with equal
    builds, on well-formed versions. *)
Theorem Equals_CompareTo (v o : version) :
  well_formed v -> well_formed o ->
  (Equals v o = true <-> CompareTo v o = 0 /\ build v = build o).
Proof.
  intros Wv Wo. rewrite Equals_eq, (CompareTo_zero_fields v o Wv Wo).
  destruct v as [a b c p q], o as [a' b' c' p' q'].
  cbn [major minor patch preRelease build]. split.
  - intros [= -> -> -> -> ->]. repeat split.
  - intros ((-> & -> & -> & ->) & ->). reflexivity.
Qed.

Lemma isExcludeEnd_false (b : abstractRange) : isExcludeEnd b = false.
Proof. induction b; simpl; auto. Qed.

(** X16. No bound has an excluded end for the code: [isExcludeEnd] and
    [IsExcludeEnd] are false of every bound and of every range, also of
    [<v], and what [union] makes of two bounds is a lower bound together
    with an upper bound [<=e]. *)
Theorem IsExcludeEnd_never :
  (forall b, isExcludeEnd b = false) /\
  (forall r, IsExcludeEnd r = false) /\
  (forall ra rb u, union ra rb = Some u ->
                   exists s e, u = startEndRange s (ltEqRange e) /\
                               (s = gtRange (start s) \/ s = gtEqRange (start s))).
Proof.
  split; [exact isExcludeEnd_false|]. split.
  - intros r. unfold IsExcludeEnd.
    destruct (ranges r) as [|b [|c l]]; auto using isExcludeEnd_false.
  - intros ra rb u. unfold union, fromTo.
    rewrite !(isExcludeEnd_false ra), !(isExcludeEnd_false rb).
    cbn [andb negb].
    repeat match goal with
      | |- context [if ?c then _ else _] => destruct c
      end;
      intros E; try discriminate; injection E as <-;
      eexists; eexists; (split; [reflexivity|]); cbn [start]; auto.
Qed.

Lemma newVersionRange_pair (vr : string) (a b m : abstractRange) :
  union b a = Some m -> newVersionRange vr [a; b] = mkRange vr [m].
Proof.
  intros U. unfold newVersionRange.
  cbn [List.length normalize Nat.ltb Nat.leb andb mergePass Nat.sub nth_error
       firstn mergeInto].
  rewrite U.
  cbn [List.length normalize Nat.ltb Nat.leb andb mergePass Nat.sub nth_error
       firstn mergeInto Nat.eqb app].
  reflexivity.
Qed.

(** X17. [FromVersions] unites its two bounds: when the start is
    inside the bound of the end, the range it gives includes every stable
    version in range, whatever is excluded. *)
Theorem FromVersions_includes_stable (s e v : version) (excludeStart excludeEnd : bool) :
  in_range s -> in_range e -> in_range v -> IsStable v = true ->
  includes (if excludeEnd then ltRange e else ltEqRange e) s = true ->
  Includes (FromVersions s excludeStart e excludeEnd) (Some v) = true.
Proof.
  intros Rs Re Rv Sv Hin.
  set (as_ := if excludeStart then gtRange s else gtEqRange s).
  set (ae := if excludeEnd then ltRange e else ltEqRange e) in *.
  assert (Es : start as_ = s) by (subst as_; destruct excludeStart; reflexivity).
  assert (Ee : end_ ae = e) by (subst ae; destruct excludeEnd; reflexivity).
  assert (Sa : start ae = Min) by (subst ae; destruct excludeEnd; reflexivity).
  assert (Ea : end_ as_ = Max) by (subst as_; destruct excludeStart; reflexivity).
  assert (Xa : isExcludeStart ae = false)
    by (subst ae; destruct excludeEnd; reflexivity).
  assert (U : exists m, union ae as_ = Some m /\ includes m v = true).
  { unfold union. rewrite Es, Ee, Sa, Ea, Hin, Xa, !isExcludeEnd_false.
    cbn [orb andb].
    pose proof (CompareTo_Min_stable v Rv Sv) as L1.
    pose proof (CompareTo_Max_above v Rv) as L2.
    pose proof (CompareTo_Max e Re) as L3.
    assert (Lo : includes
                   (let '(start', ex) :=
                      if CompareTo Min s <? 0 then (Min, false)
                      else if CompareTo Min s >? 0 then (s, isExcludeStart as_)
                           else (Min, false) in
                    if ex then gtRange start' else gtEqRange start') v = true).
    { destruct (Z.ltb_spec (CompareTo Min s) 0);
        [cbn [includes]; now apply Z.leb_le|].
      rewrite Z.gtb_ltb.
      destruct (Z.ltb_spec 0 (CompareTo Min s)) as [B|];
        [|cbn [includes]; now apply Z.leb_le].
      pose proof (below_Min s v Rs B Rv Sv) as L4.
      destruct (isExcludeStart as_); cbn [includes];
        [apply Z.ltb_lt | apply Z.leb_le]; lia. }
    assert (Hi : includes
                   (let '(end', ex) :=
                      if CompareTo e Max >? 0 then (e, false)
                      else if CompareTo e Max <? 0 then (Max, false)
                           else (e, false) in
                    if ex then ltRange end' else ltEqRange end') v = true).
    { rewrite Z.gtb_ltb.
      destruct (Z.ltb_spec 0 (CompareTo e Max)); [lia|].
      destruct (Z.ltb_spec (CompareTo e Max) 0);
        cbn [includes]; rewrite Z.geb_leb; apply Z.leb_le; [assumption|].
      apply equal_Max; [assumption | lia | assumption]. }
    destruct (if CompareTo Min s <? 0 then (Min, false)
              else if CompareTo Min s >? 0 then (s, isExcludeStart as_)
                   else (Min, false)) as [start' ex].
    destruct (if CompareTo e Max >? 0 then (e, false)
              else if CompareTo e Max <? 0 then (Max, false)
                   else (e, false)) as [end' ex'].
    eexists. split; [reflexivity|]. cbn [includes]. now rewrite Lo, Hi. }
  destruct U as (m & U & I).
  unfold FromVersions. fold as_ ae. rewrite (newVersionRange_pair _ _ _ _ U).
  unfold Includes. cbn [ranges existsb]. now rewrite I, Sv.
Qed.

End Membership.

(** ** The texts of a version *)

Section Texts.

Lemma writeParts_map (f : string -> segment) (l : list string) :
  Forall (fun t => segmentString (f t) = t) l ->
  writeParts (map f l) = writeParts (map SStr l).
Proof.
  intros F. destruct F as [|x l Hx F]; [reflexivity|].
  cbn [map writeParts segmentString]. rewrite Hx. f_equal.
  induction F as [|y l Hy F IH]; [reflexivity|].
  cbn [map writePartsRest segmentString]. now rewrite Hy, IH.
Qed.

(** [strings.Join(strings.Split(s, "."), ".")] is [s]. *)
Lemma writeParts_Split (s : string) :
  writeParts (map SStr (Go.Split "." s)) = s.
Proof.
  induction s as [|c r IH]; [reflexivity|].
  cbn [Go.Split]. pose proof (Split_nonempty "." r) as N.
  destruct (Go.Split "." r) as [|h t]; [contradiction|].
  cbn [map writeParts segmentString] in IH.
  destruct (Ascii.eqb_spec c ".") as [->|_].
  - cbn [map writeParts writePartsRest segmentString String.append].
    now rewrite IH.
  - cbn [map writeParts segmentString String.append]. now rewrite IH.
Qed.

Lemma digits_every (s : string) :
  forall acc n, Go.digits acc s = Some n -> everyChar Go.isDigit s = true.
Proof.
  induction s as [|c r IH]; intros acc n; simpl; [reflexivity|].
  destruct (Go.isDigit c); [|discriminate]. apply IH.
Qed.

Lemma every_digits_uint (s : string) :
  everyChar Go.isDigit s = true -> exists d, s = NilEmpty.string_of_uint d.
Proof.
  induction s as [|c r IH]; [exists Decimal.Nil; reflexivity|].
  simpl. intros H. apply andb_true_iff in H as [Hc Hr].
  destruct (IH Hr) as (d & ->).
  destruct c as [[] [] [] [] [] [] [] []]; try discriminate;
    first [ exists (Decimal.D0 d); reflexivity
          | exists (Decimal.D1 d); reflexivity
          | exists (Decimal.D2 d); reflexivity
          | exists (Decimal.D3 d); reflexivity
          | exists (Decimal.D4 d); reflexivity
          | exists (Decimal.D5 d); reflexivity
          | exists (Decimal.D6 d); reflexivity
          | exists (Decimal.D7 d); reflexivity
          | exists (Decimal.D8 d); reflexivity
          | exists (Decimal.D9 d); reflexivity ].
Qed.

Lemma span_every (p : ascii -> bool) (s : string) :
  everyChar p s = true -> Go.span p s = (s, "").
Proof.
  induction s as [|c r IH]; simpl; [reflexivity|].
  intros H. apply andb_true_iff in H as [Hc Hr]. now rewrite Hc, (IH Hr).
Qed.

Lemma every_span (p : ascii -> bool) (s : string) :
  snd (Go.span p s) = "" -> everyChar p s = true.
Proof.
  induction s as [|c r IH]; simpl; [reflexivity|].
  destruct (p c); [|discriminate].
  destruct (Go.span p r) as [a b]. simpl in *. exact IH.
Qed.

Lemma everyChar_impl (p q : ascii -> bool) (s : string) :
  (forall c, p c = true -> q c = true) ->
  everyChar p s = true -> everyChar q s = true.
Proof.
  intros I. induction s as [|c r IH]; simpl; [reflexivity|].
  intros H. apply andb_true_iff in H as [Hc Hr]. now rewrite (I c Hc), (IH Hr).
Qed.

(** A number without a sign and without a leading zero is written back
    as it was read. *)
Lemma itoa_magnitude (c : ascii) (r : string) (un : Z) :
  Go.isDigit19 c = true ->
  Go.magnitude (String c r) = Some un -> Go.itoa un = String c r.
Proof.
  intros Hc M. unfold Go.magnitude in M.
  destruct (every_digits_uint _ (digits_every _ _ _ M)) as (d & E).
  rewrite E, digits_uint in M. injection M as <-.
  assert (N : Decimal.unorm d = d).
  { destruct d; try reflexivity; simpl in E;
      [discriminate | injection E as -> _; discriminate]. }
  pose proof (DecimalPos.Unsigned.to_of d) as T. rewrite N in T.
  destruct (Pos.of_uint d) as [|p] eqn:P.
  - simpl in T. subst d. simpl in E. injection E as -> _. discriminate.
  - cbn [Z.of_N]. rewrite itoa_pos. simpl in T. now rewrite T, E.
Qed.

(** A segment of a pre-release that has no hyphen is written as it was
    given, whether it was made a number or not. *)
Lemma mungePart_text (part : string) :
  isVPRPart part = true ->
  everyChar (fun ch => negb (ch =? "-")%char) part = true ->
  segmentString (mungePart part) = part.
Proof.
  intros V H. unfold mungePart.
  destruct (Go.ParseInt part) as [i [e|]] eqn:E; [reflexivity|].
  cbn [segmentString]. destruct part as [|c r]; [discriminate|].
  unfold isVPRPart in V. apply andb_true_iff in V as [A V].
  unfold allChars in A. apply String.eqb_eq in A. apply every_span in A.
  cbn [everyChar] in A, H.
  apply andb_true_iff in A as [Ac _]. apply andb_true_iff in H as [Hc _].
  assert (S : (c =? "+")%char = false /\ (c =? "-")%char = false).
  { split; [|now apply negb_true_iff in Hc].
    destruct c as [[] [] [] [] [] [] [] []]; try reflexivity; discriminate. }
  destruct S as [Sp Sm].
  unfold Go.ParseInt in E.
  assert (B : match String c r with
              | String "+" r0 => (false, r0)
              | String "-" r0 => (true, r0)
              | _ => (false, String c r)
              end = (false, String c r)).
  { destruct c as [[] [] [] [] [] [] [] []]; try reflexivity; discriminate. }
  rewrite B in E.
  destruct (Go.magnitude (String c r)) as [un|] eqn:M; [|discriminate].
  cbn [negb andb] in E.
  destruct (2 ^ 63 <=? un); [discriminate|]. injection E as <-.
  pose proof (digits_every _ _ _ M) as D.
  apply orb_true_iff in V as [V|V]; [apply orb_true_iff in V as [V|V]|].
  - apply String.eqb_eq in V. rewrite V in *. injection M as <-. reflexivity.
  - apply andb_true_iff in V as [V _]. now apply itoa_magnitude.
  - exfalso. unfold anyChar, allChars in V. apply negb_true_iff in V.
    assert (I : forall ch, Go.isDigit ch = true ->
                           negb (Go.isAlphaHyphen ch) = true)
      by (intros [[] [] [] [] [] [] [] []]; try reflexivity; discriminate).
    rewrite (span_every _ _ (everyChar_impl _ _ _ I D)) in V. discriminate.
Qed.

Lemma Split_every (p : ascii -> bool) (sep : ascii) (s : string) :
  everyChar p s = true ->
  Forall (fun t => everyChar p t = true) (Go.Split sep s).
Proof.
  induction s as [|c r IH]; simpl; intros H; [repeat constructor|].
  apply andb_true_iff in H as [Hc Hr]. specialize (IH Hr).
  destruct (c =? sep)%char; [constructor; [reflexivity | assumption]|].
  destruct (Go.Split sep r) as [|h t]; [repeat constructor; simpl; now rewrite Hc|].
  inversion IH; subst. constructor; [simpl; now rewrite Hc | assumption].
Qed.

(** X18. A version made by [NewVersion3] gives back the build text it
    was made from, and the pre-release text too when that has no hyphen;
    its text is then the three numbers with [-] and the pre-release and
    with [+] and the build, each when it is not empty. *)
Theorem NewVersion3_texts (a b c : Z) (p q : string) (v : version) :
  NewVersion3 a b c p q = Ok v ->
  Build v = q /\
  (everyChar (fun ch => negb (ch =? "-")%char) p = true ->
   PreRelease v = p /\
   versionToString v
   = Go.itoa a ++ "." ++ Go.itoa b ++ "." ++ Go.itoa c
     ++ (if (p =? "")%string then "" else "-" ++ p)
     ++ (if (q =? "")%string then "" else "+" ++ q)).
Proof.
  unfold NewVersion3. destruct ((a <? 0) || (b <? 0) || (c <? 0)); [discriminate|].
  destruct (splitParts "pre-release" p true) as [ps|] eqn:Ps; [|discriminate].
  destruct (splitParts "build" q false) as [bs|] eqn:Bs; [|discriminate].
  cbn [bind]. intros [= <-].
  assert (Tb : match bs with Some l => writeParts l | None => "" end = q
               /\ (bs = None <-> q = "")).
  { revert Bs. unfold splitParts. destruct (String.eqb_spec q "") as [->|Nq].
    - intros [= <-]. split; [reflexivity | tauto].
    - destruct (negb (vPartsPattern q)); [discriminate|]. intros [= <-].
      split; [apply writeParts_Split|]. split; [discriminate | contradiction]. }
  destruct Tb as [Tb Nb].
  unfold Build, PreRelease, versionToString.
  cbn [major minor patch preRelease build].
  split; [exact Tb|]. intros H.
  assert (Tp : match ps with Some l => writeParts l | None => "" end = p
               /\ (ps = None <-> p = "")).
  { revert Ps. unfold splitParts. destruct (String.eqb_spec p "") as [->|Np].
    - intros [= <-]. split; [reflexivity | tauto].
    - destruct (vPRPartsPattern p) eqn:V; [|discriminate]. cbn [negb].
      intros [= <-]. split; [|split; [discriminate | contradiction]].
      rewrite writeParts_map; [apply writeParts_Split|].
      unfold vPRPartsPattern, matchParts in V. rewrite forallb_forall in V.
      pose proof (Split_every _ "." p H) as F. rewrite Forall_forall in F |- *.
      intros t Ht. apply mungePart_text; auto. }
  destruct Tp as [Tp Np]. split; [exact Tp|].
  destruct (String.eqb_spec p "") as [Ep|Ep], (String.eqb_spec q "") as [Eq|Eq].
  - rewrite (proj2 Np Ep), (proj2 Nb Eq). reflexivity.
  - rewrite (proj2 Np Ep). destruct bs; [now rewrite Tb | tauto].
  - rewrite (proj2 Nb Eq). destruct ps; [now rewrite Tp | tauto].
  - destruct ps; [rewrite Tp | tauto]. destruct bs; [now rewrite Tb | tauto].
Qed.

End Texts.

(** ** Parsing ranges *)

Section Parsing.

(** A text without spaces, bars and [v] that is one simple term. *)
Lemma ParseVersionRange_simple (t : string) (m : list string) (bd : abstractRange) :
  everyChar termChar t = true -> t <> "" ->
  hyphenPattern t = None -> simplePattern t = Some m -> createRange m = Ok bd ->
  ParseVersionRange t = Ok (Some (mkRange t [bd])).
Proof.
  intros Ec Ne Hh Hs Hr. unfold ParseVersionRange.
  destruct (String.eqb_spec t "") as [|_]; [contradiction|].
  rewrite (opWsReplaceAll_free _ (opWsFree_every _ Ec)).
  unfold orSplit. rewrite (orSplitLoop_every _ Ec).
  cbn [String.append List.length Nat.eqb parseAlternatives].
  destruct (String.eqb_spec t "") as [|_]; [contradiction|].
  rewrite Hh. unfold simpleSplit. rewrite (simpleSplitLoop_every _ Ec).
  cbn [String.append parseSimples]. rewrite Hs, Hr. reflexivity.
Qed.

Lemma matchPartial_one (a : Z) :
  0 <= a -> matchPartial (Go.itoa a) = Some ([Go.itoa a; ""; ""; ""; ""], "").
Proof.
  intros Ha. pose proof (proj2 (matchNR_itoa a "" Ha eq_refl)) as E.
  rewrite append_empty_r in E. unfold matchPartial. now rewrite E.
Qed.

Lemma matchPartial_two (a b : Z) :
  0 <= a -> 0 <= b ->
  matchPartial (Go.itoa a ++ String "." (Go.itoa b))
  = Some ([Go.itoa a; Go.itoa b; ""; ""; ""], "").
Proof.
  intros Ha Hb. pose proof (proj2 (matchNR_itoa b "" Hb eq_refl)) as E.
  rewrite append_empty_r in E. unfold matchPartial.
  now rewrite (proj2 (matchNR_itoa a _ Ha (span_dot _))), E.
Qed.

(** A text that starts with a number and is a whole [partial] is a
    simple term without operator, and no hyphen expression. *)
Lemma simplePattern_partial (a : Z) (rest : string) (gs : list string) :
  0 <= a ->
  matchPartial (Go.itoa a ++ rest) = Some (gs, "") ->
  Go.itoa a ++ rest <> "" /\
  hyphenPattern (Go.itoa a ++ rest) = None /\
  simplePattern (Go.itoa a ++ rest) = Some ((Go.itoa a ++ rest) :: "" :: gs).
Proof.
  intros Ha M. destruct (itoa_head a Ha) as (c0 & r0 & E0 & D0).
  destruct (isDigit_not_wild c0 D0) as (_ & _ & _ & Hop).
  split; [rewrite E0; discriminate|]. split.
  - unfold hyphenPattern. now rewrite M.
  - rewrite E0 in *. cbn [String.append] in *. unfold simplePattern, fullPartial.
    now rewrite Hop, M.
Qed.

(** X19. What a number alone, two numbers, and a tilde or a caret on
    three numbers mean: [a] is [>=a.0.0 <(a+1).0.0], [a.b] is
    [>=a.b.0 <a.(b+1).0], [~a.b.c] is [>=a.b.c <a.(b+1).0], and [^a.b.c]
    is [>=a.b.c <(a+1).0.0] unless [a] is 0, when it is [~0.b.c]. *)
Theorem ParseVersionRange_updates (a b c : Z) :
  0 <= a <= Go.MaxInt64 -> 0 <= b <= Go.MaxInt64 -> 0 <= c <= Go.MaxInt64 ->
  let parsed (t : string) (lo hi : version) :=
    ParseVersionRange t
    = Ok (Some (mkRange t [startEndRange (gtEqRange lo) (ltRange hi)])) in
  parsed (Go.itoa a) (v3 a 0 0) (v3 (Go.add a 1) 0 0) /\
  parsed (Go.itoa a ++ "." ++ Go.itoa b) (v3 a b 0) (v3 a (Go.add b 1) 0) /\
  parsed ("~" ++ versionToString (v3 a b c)) (v3 a b c) (v3 a (Go.add b 1) 0) /\
  parsed ("^" ++ versionToString (v3 a b c)) (v3 a b c)
    (if a =? 0 then v3 a (Go.add b 1) 0 else v3 (Go.add a 1) 0 0).
Proof.
  intros Ha Hb Hc parsed. subst parsed. cbv beta.
  pose proof (everyChar_itoa a (proj1 Ha)) as Ea.
  pose proof (everyChar_itoa b (proj1 Hb)) as Eb.
  pose proof (everyChar_v3 a b c (proj1 Ha) (proj1 Hb) (proj1 Hc)) as Ev.
  pose proof (fullPartial_v3 a b c (proj1 Ha) (proj1 Hb) (proj1 Hc)) as Fp.
  split; [|split; [|split]].
  - pose proof (matchPartial_one a (proj1 Ha)) as M.
    rewrite <- (append_empty_r (Go.itoa a)) in M at 1.
    destruct (simplePattern_partial a "" _ (proj1 Ha) M) as (Ne & Hh & Hs).
    rewrite append_empty_r in Ne, Hh, Hs.
    apply (ParseVersionRange_simple _ _ _ Ea Ne Hh Hs).
    unfold createRange, group. cbn [nth String.eqb Ascii.eqb Bool.eqb orb].
    cbv iota. unfold createXRange, allowPatchUpdates, group. cbn [nth].
    rewrite xDigit_itoa by assumption. reflexivity.
  - pose proof (matchPartial_two a b (proj1 Ha) (proj1 Hb)) as M.
    destruct (simplePattern_partial a _ _ (proj1 Ha) M) as (Ne & Hh & Hs).
    cbn [String.append].
    assert (Et : everyChar termChar (Go.itoa a ++ String "." (Go.itoa b)) = true).
    { rewrite everyChar_app. cbn [everyChar]. now rewrite Ea, Eb. }
    apply (ParseVersionRange_simple _ _ _ Et Ne Hh Hs).
    unfold createRange, group. cbn [nth String.eqb Ascii.eqb Bool.eqb orb].
    cbv iota. unfold createXRange, allowPatchUpdates, group. cbn [nth].
    rewrite !xDigit_itoa by assumption. reflexivity.
  - set (vt := versionToString (v3 a b c)) in *. cbn [String.append].
    apply (ParseVersionRange_simple _
             [String "~" vt; "~"; Go.itoa a; Go.itoa b; Go.itoa c; ""; ""]).
    + cbn [everyChar]. now rewrite Ev.
    + discriminate.
    + reflexivity.
    + unfold simplePattern. cbn [isOpChar Ascii.eqb Bool.eqb orb].
      now rewrite Fp.
    + unfold createRange, group. cbn [nth String.eqb Ascii.eqb Bool.eqb orb].
      cbv iota. unfold createTildeRange, allowPatchUpdates, group. cbn [nth].
      rewrite !xDigit_itoa by assumption. cbn [bind negb].
      rewrite NewVersion3_plain by lia. reflexivity.
  - set (vt := versionToString (v3 a b c)) in *. cbn [String.append].
    apply (ParseVersionRange_simple _
             [String "^" vt; "^"; Go.itoa a; Go.itoa b; Go.itoa c; ""; ""]).
    + cbn [everyChar]. now rewrite Ev.
    + discriminate.
    + reflexivity.
    + unfold simplePattern. cbn [isOpChar Ascii.eqb Bool.eqb orb].
      now rewrite Fp.
    + unfold createRange, group. cbn [nth String.eqb Ascii.eqb Bool.eqb orb].
      cbv iota.
      unfold createCaretRange, allowPatchUpdates, allowMinorUpdates, group.
      cbn [nth]. rewrite !xDigit_itoa by assumption. cbn [bind negb].
      destruct (a =? 0); rewrite ?xDigit_itoa by assumption; cbn [bind negb];
        rewrite NewVersion3_plain by lia; reflexivity.
Qed.

Lemma parseAlternatives_length (rangeStrings : list string) :
  forall acc rs,
    parseAlternatives rangeStrings acc = Ok rs ->
    (List.length rs <= List.length acc + List.length rangeStrings)%nat.
Proof.
  induction rangeStrings as [|rangeStr rest IH]; intros acc rs; simpl.
  - intros [= <-]. lia.
  - destruct (rangeStr =? "")%string.
    { intros H. apply IH in H. rewrite length_app in H. simpl in H. lia. }
    destruct (hyphenPattern rangeStr) as [m|].
    + destruct (createGtEqRange m 1) as [e1|]; [|discriminate].
      destruct (createGtEqRange m 6) as [e2|]; [|discriminate]. cbn [bind].
      destruct (intersection e1 e2); [|discriminate].
      intros H. apply IH in H. rewrite length_app in H. simpl in H. lia.
    + destruct (parseSimples (simpleSplit rangeStr) None) as [[sr|]|];
        [| |discriminate]; cbn [bind]; intros H; apply IH in H;
        rewrite ?length_app in H; simpl in H; lia.
Qed.

(** A list that is not empty is made a range with the given text. *)
Lemma newVersionRange_made (vr : string) (rs : list abstractRange) :
  rs <> [] ->
  exists rs',
    newVersionRange vr rs = mkRange vr rs' /\ rs' <> [] /\ settled rs' /\
    (List.length rs' <= List.length rs)%nat.
Proof.
  intros N. unfold newVersionRange.
  pose proof (normalize_length (List.length rs) rs true) as L.
  pose proof (normalize_settled (List.length rs) rs true (le_n _)) as S.
  pose proof (normalize_nonempty (List.length rs) rs true N) as Ne.
  destruct (normalize (List.length rs) rs true) as [|b l]; [contradiction|].
  exists (b :: l). repeat split; try assumption. apply S. discriminate.
Qed.

(** X20. [ParseVersionRange] gives no range and no error for the empty
    text only.  A range it gives has an alternative at least and at most
    one for each piece between [||]; none of them is nil and none can be
    united with one before it. *)
Theorem ParseVersionRange_outcome (s : string) :
  (ParseVersionRange s = Ok None <-> s = "") /\
  ParseVersionRange s <> Err NilBound /\
  (forall r, ParseVersionRange s = Ok (Some r) ->
             ranges r <> [] /\ settled (ranges r) /\
             (List.length (ranges r)
              <= List.length (orSplit (opWsReplaceAll s)))%nat).
Proof.
  unfold ParseVersionRange. destruct (String.eqb_spec s "") as [->|Ns].
  { split; [tauto|]. split; discriminate. }
  destruct (List.length (orSplit (opWsReplaceAll s)) =? 0)%nat eqn:L0.
  { split; [split; [discriminate | contradiction]|]. split; discriminate. }
  pose proof (parseAlternatives_not_nil (orSplit (opWsReplaceAll s)) []) as Nn.
  destruct (parseAlternatives (orSplit (opWsReplaceAll s)) []) as [rs|e] eqn:P;
    cbn [bind].
  2:{ split; [split; [discriminate | contradiction]|].
      split; [congruence | discriminate]. }
  split; [split; [discriminate | contradiction]|]. split; [discriminate|].
  intros r [= <-]. apply parseAlternatives_length in P. simpl in P.
  apply Nat.eqb_neq in L0.
  destruct rs as [|b l].
  - rewrite newVersionRange_nil. unfold MatchNone. cbn [ranges List.length].
    split; [discriminate|]. split; [apply settled_short; simpl; lia | lia].
  - destruct (newVersionRange_made (opWsReplaceAll s) (b :: l)) as (rs' & -> & N & S & L);
      [discriminate|].
    cbn [ranges]. repeat split; try assumption. lia.
Qed.

Lemma flat_map_nil {A B : Type} (f : A -> list B) (l : list A) :
  flat_map f l = [] <-> forall x, In x l -> f x = [].
Proof.
  induction l as [|a l IH]; simpl; [tauto|].
  split.
  - intros H. apply app_eq_nil in H as [Ha Hl]. intros x [<-|Hx]; [assumption|].
    now apply IH.
  - intros H. rewrite (H a (or_introl eq_refl)). apply IH. auto.
Qed.

Lemma flat_map_length {A B : Type} (f : A -> list B) (l : list A) (n : nat) :
  (forall x, List.length (f x) <= n)%nat ->
  (List.length (flat_map f l) <= List.length l * n)%nat.
Proof.
  intros H. induction l as [|a l IH]; simpl; [lia|].
  rewrite length_app. specialize (H a). lia.
Qed.

(** X21. [Merge] and [Intersection] give ranges in normal form that
    are written by their bounds.  [Intersection] is nil for a nil range,
    and otherwise exactly when no alternative of the one has an
    intersection with an alternative of the other. *)
Theorem Merge_Intersection_normal (r o : versionRange) :
  (ranges r <> [] ->
   originalString (Merge r o) = "" /\
   ranges (Merge r o) <> [] /\ settled (ranges (Merge r o)) /\
   (List.length (ranges (Merge r o))
    <= List.length (ranges r) + List.length (ranges o))%nat) /\
  Intersection r None = None /\
  (Intersection r (Some o) = None <->
   forall ar ao, In ar (ranges r) -> In ao (ranges o) -> intersection ar ao = None) /\
  (forall i, Intersection r (Some o) = Some i ->
             originalString i = "" /\
             ranges i <> [] /\ settled (ranges i) /\
             (List.length (ranges i)
              <= List.length (ranges r) * List.length (ranges o))%nat).
Proof.
  split; [|split; [reflexivity|]].
  - intros N. unfold Merge.
    destruct (newVersionRange_made "" (ranges r ++ ranges o)%list)
      as (rs' & -> & N' & S & L).
    + destruct (ranges r); [contradiction | discriminate].
    + rewrite length_app in L. cbn [originalString ranges]. auto.
  - unfold Intersection.
    remember (flat_map
                (fun ar =>
                   flat_map
                     (fun ao =>
                        match intersection ar ao with
                        | Some is_ => [is_]
                        | None => []
                        end) (ranges o)) (ranges r)) as iscs eqn:Hi.
    assert (E : iscs = [] <->
                forall ar ao, In ar (ranges r) -> In ao (ranges o) ->
                              intersection ar ao = None).
    { subst iscs. rewrite flat_map_nil. split.
      - intros H ar ao Hr Ho. specialize (H ar Hr).
        rewrite flat_map_nil in H. specialize (H ao Ho). cbv beta in H.
        destruct (intersection ar ao); [discriminate | reflexivity].
      - intros H ar Hr. apply flat_map_nil. intros ao Ho.
        now rewrite (H ar ao Hr Ho). }
    assert (Ln : (List.length iscs
                  <= List.length (ranges r) * List.length (ranges o))%nat).
    { subst iscs. apply flat_map_length. intros ar.
      rewrite <- (Nat.mul_1_r (List.length (ranges o))).
      apply flat_map_length. intros ao.
      destruct (intersection ar ao); simpl; lia. }
    clear Hi. destruct iscs as [|b l].
    + cbn [List.length Nat.ltb Nat.leb].
      split; [split; [intros _; now apply E | reflexivity]|]. discriminate.
    + cbn [List.length Nat.ltb Nat.leb]. split.
      * split; [discriminate|]. intros H. apply E in H. discriminate.
      * intros i [= <-].
        destruct (newVersionRange_made "" (b :: l)) as (rs' & -> & N' & S & L);
          [discriminate|].
        cbn [originalString ranges]. repeat split; try assumption. lia.
Qed.

End Parsing.

(** ** The bounds' tests of position *)

Section Position.

(** Without its pre-release a version is not lower for a stable one. *)
Lemma CompareTo_ToStable (rv v : version) :
  IsStable rv = true -> CompareTo rv (ToStable v) <= CompareTo rv v.
Proof.
  unfold IsStable, CompareTo, ToStable. cbn [major minor patch preRelease].
  destruct (preRelease rv); [discriminate|]. intros _.
  destruct (Go.sub (major rv) (major v) =? 0); [|lia].
  destruct (Go.sub (minor rv) (minor v) =? 0); [|lia].
  destruct (Go.sub (patch rv) (patch v) =? 0); [|lia].
  destruct (preRelease v); simpl; lia.
Qed.

Lemma CompareTo_ToStable_stable (rv v : version) :
  IsStable v = true -> CompareTo rv (ToStable v) = CompareTo rv v.
Proof.
  unfold IsStable, CompareTo, ToStable. cbn [major minor patch preRelease].
  destruct (preRelease v); [discriminate | reflexivity].
Qed.

(** X22. A bound that [isAbove] a version does not include it, and a
    bound that [isBelow] a stable version does not include it. *)
Theorem isAbove_isBelow_exclude (r : abstractRange) (v : version) :
  (isAbove r v = true -> includes r v = false) /\
  (isBelow r v = true -> IsStable v = true -> includes r v = false).
Proof.
  induction r as [w|w|w|w|w|s [IHs1 IHs2] e [IHe1 IHe2]];
    cbn [isAbove isBelow includes]; (split; [intros H | intros H Sv]);
    try discriminate.
  - rewrite Z.gtb_ltb in H. apply Z.ltb_lt in H. apply Z.eqb_neq. lia.
  - apply Z.ltb_lt in H. apply Z.eqb_neq. lia.
  - apply Z.geb_le in H. apply Z.ltb_ge.
    destruct (IsStable w) eqn:Sw; [|lia].
    pose proof (CompareTo_ToStable w v Sw). lia.
  - rewrite Z.gtb_ltb in H. apply Z.ltb_lt in H. apply Z.leb_gt. assumption.
  - apply Z.leb_le in H. rewrite Z.gtb_ltb. apply Z.ltb_ge.
    destruct (IsStable w); [|assumption].
    now rewrite (CompareTo_ToStable_stable w v Sv) in H.
  - apply Z.ltb_lt in H. rewrite Z.geb_leb. apply Z.leb_gt. assumption.
  - now rewrite (IHs1 H).
  - rewrite (IHe2 H Sv). apply andb_false_r.
Qed.

(** X23. [isOverlap] does not depend on the order of the two bounds,
    and where it holds the [intersection] of the bounds is not nil. *)
Theorem isOverlap_intersection (ra rb : abstractRange) :
  isOverlap ra rb = isOverlap rb ra /\
  (isOverlap ra rb = true -> intersection ra rb <> None).
Proof.
  unfold isOverlap, intersection.
  rewrite !isExcludeEnd_false, !orb_false_r, !Z.gtb_ltb.
  destruct (Z.ltb_spec (CompareTo (start ra) (end_ rb)) 0),
    (Z.eqb_spec (CompareTo (start ra) (end_ rb)) 0),
    (Z.ltb_spec 0 (CompareTo (start ra) (end_ rb))),
    (Z.ltb_spec (CompareTo (start rb) (end_ ra)) 0),
    (Z.eqb_spec (CompareTo (start rb) (end_ ra)) 0),
    (Z.ltb_spec 0 (CompareTo (start rb) (end_ ra)));
    try lia;
    destruct (isExcludeStart ra), (isExcludeStart rb); cbn [orb andb negb];
    (split; [reflexivity | try discriminate]); intros _;
    repeat match goal with
      | |- context [if ?c then _ else _] => destruct c
      end; discriminate.
Qed.

End Position.

(** ** What the update ranges include *)

Section Updates.

Lemma CompareTo_v3 (a b c : Z) (v : version) :
  0 <= a <= Go.MaxInt64 -> 0 <= b <= Go.MaxInt64 -> 0 <= c <= Go.MaxInt64 ->
  in_range v -> IsStable v = true ->
  CompareTo (v3 a b c) v
  = if a - major v =? 0 then
      if b - minor v =? 0 then c - patch v else b - minor v
    else a - major v.
Proof.
  intros Ha Hb Hc (Ra & Rb & Rc) Sv. unfold IsStable in Sv.
  destruct (preRelease v) eqn:P; [discriminate|].
  unfold CompareTo, v3. cbn [major minor patch preRelease].
  rewrite P, !sub_exact by assumption.
  destruct (a - major v =? 0); [|reflexivity].
  destruct (b - minor v =? 0); [|reflexivity].
  destruct (Z.eqb_spec (c - patch v) 0) as [E|]; [|reflexivity].
  now rewrite E.
Qed.

Lemma add_one (z : Z) : 0 <= z < Go.MaxInt64 -> Go.add z 1 = z + 1.
Proof.
  unfold Go.MaxInt64, Go.add. intros H. apply wrap64_id. lia.
Qed.

(** X24. The members of the bounds that [~a.b.c] and [a.b] on the one
    hand, [^a.b.c] and [a] on the other are parsed to: the stable
    versions [a.b.p] with [p] not below [c], and the stable versions
    [a.m.p] with [m.p] not below [b.c]; no pre-release is one. *)
Theorem Includes_updates (t : string) (a b c : Z) (v : version) :
  0 <= a < Go.MaxInt64 -> 0 <= b < Go.MaxInt64 -> 0 <= c <= Go.MaxInt64 ->
  in_range v ->
  (Includes
     (mkRange t [startEndRange (gtEqRange (v3 a b c))
                               (ltRange (v3 a (Go.add b 1) 0))]) (Some v) = true <->
   IsStable v = true /\ major v = a /\ minor v = b /\ c <= patch v) /\
  (Includes
     (mkRange t [startEndRange (gtEqRange (v3 a b c))
                               (ltRange (v3 (Go.add a 1) 0 0))]) (Some v) = true <->
   IsStable v = true /\ major v = a /\
   (b < minor v \/ (minor v = b /\ c <= patch v))).
Proof.
  intros Ha Hb Hc Rv. unfold Includes.
  cbn [ranges existsb includes testPrerelease].
  replace (IsStable (v3 a b c)) with true by reflexivity.
  replace (IsStable (v3 a (Go.add b 1) 0)) with true by reflexivity.
  replace (IsStable (v3 (Go.add a 1) 0 0)) with true by reflexivity.
  cbn [negb andb orb]. rewrite !orb_false_r.
  destruct (IsStable v) eqn:Sv;
    [|rewrite !andb_false_r; split; split; intros H; try discriminate;
      destruct H; discriminate].
  rewrite !andb_true_r, !add_one by assumption.
  pose proof Rv as (Ra & Rb & Rc). unfold Go.MaxInt64 in *.
  rewrite !CompareTo_v3 by (unfold Go.MaxInt64; trivial; lia).
  rewrite !andb_true_iff, !Z.leb_le, !Z.gtb_ltb, !Z.ltb_lt.
  destruct (Z.eqb_spec (a - major v) 0), (Z.eqb_spec (a + 1 - major v) 0),
    (Z.eqb_spec (b - minor v) 0), (Z.eqb_spec (b + 1 - minor v) 0),
    (Z.eqb_spec (0 - minor v) 0); split; split; intros H; lia.
Qed.

End Updates.

(** ** Comparators on partial versions *)

Section Comparators.























End Comparators.

(** ** Restrictiveness *)

Section Restrictiveness.

(** C8. [IsAsRestrictiveAs] asks, for each alternative of the receiver,
    for an alternative of the other that intersects it and passes
    [asRestrictedAs].  That test compares the starts with the tie-break
    on exclusion, so [>=1.0.0] is not as restrictive as [>1.0.0]; on the
    ends its tie-break never applies, because no bound has an excluded
    end for the code: an end that is not lower is enough, and [<=2.0.0]
    is found as restrictive as [<2.0.0], which does not include 2.0.0.
    [=1.2.3] is as restrictive as [^1.0.0] and the converse fails. *)
Theorem C8_end_tie_break_never_applies :
  (forall r o : versionRange,
      IsAsRestrictiveAs r o = true <->
      forall ar, In ar (ranges r) ->
        exists ao, In ao (ranges o) /\
                   intersection ar ao <> None /\
                   asRestrictedAs ar ao = true) /\
  (forall ar ao : abstractRange,
      asRestrictedAs ar ao = true <->
      (CompareTo (start ao) (start ar) < 0 \/
       (CompareTo (start ao) (start ar) = 0 /\
        (isExcludeStart ar = true \/ isExcludeStart ao = false))) /\
      0 <= CompareTo (end_ ao) (end_ ar)) /\
  (exists a b,
      ParseVersionRange "=1.2.3" = Ok (Some a) /\
      ParseVersionRange "^1.0.0" = Ok (Some b) /\
      IsAsRestrictiveAs a b = true /\
      IsAsRestrictiveAs b a = false) /\
  (exists a b,
      ParseVersionRange ">=1.0.0" = Ok (Some a) /\
      ParseVersionRange ">1.0.0" = Ok (Some b) /\
      IsAsRestrictiveAs a b = false /\
      IsAsRestrictiveAs b a = true) /\
  (exists a b,
      ParseVersionRange "<=2.0.0" = Ok (Some a) /\
      ParseVersionRange "<2.0.0" = Ok (Some b) /\
      IsAsRestrictiveAs a b = true /\
      Includes a (Some (v3 2 0 0)) = true /\
      Includes b (Some (v3 2 0 0)) = false).
Proof.
  split; [|split; [|split; [|split]]].
  - intros r o. unfold IsAsRestrictiveAs. rewrite forallb_forall. split.
    + intros H ar Hin. specialize (H ar Hin).
      apply existsb_exists in H as (ao & Hao & Hr). exists ao.
      destruct (intersection ar ao); [|discriminate].
      repeat split; [assumption | discriminate | assumption].
    + intros H ar Hin. destruct (H ar Hin) as (ao & Hao & Hi & Hr).
      apply existsb_exists. exists ao. split; [assumption|].
      destruct (intersection ar ao); [assumption | congruence].
  - intros ar ao. rewrite asRestrictedAs_spec.
    rewrite (isExcludeEnd_false ar), (isExcludeEnd_false ao).
    split.
    + intros [Hs [He | [He _]]]; (split; [exact Hs | lia]).
    + intros [Hs He]. split; [exact Hs|].
      destruct (Z.eq_dec (CompareTo (end_ ao) (end_ ar)) 0) as [E|E];
        [right; split; [exact E | right; reflexivity] | left; lia].
  - eexists. eexists. evaluate_all.
  - eexists. eexists. evaluate_all.
  - eexists. eexists. evaluate_all.
Qed.

End Restrictiveness.

(** ** Worked instances *)

Section Instances.

Ltac concrete :=
  unfold well_formed, plain, in_range, segs;
  cbn [major minor patch preRelease v_rc1_a v_rc1_b v_rc2 v3];
  repeat match goal with
    | |- _ /\ _ => split
    | |- Forall _ _ => constructor
    | |- seg_in_int _ => cbn [seg_in_int]
    | |- seg_nonneg _ => cbn [seg_nonneg]
    | |- True => exact I
    end;
  unfold Go.MaxInt64, Go.MinInt64; simpl List.length; lia.

Lemma CompareTo_zero_iff_witness :
  well_formed v_rc1_a /\ well_formed v_rc1_b /\ CompareTo v_rc1_a v_rc1_b = 0.
Proof.
  assert (Wa : well_formed v_rc1_a) by concrete.
  assert (Wb : well_formed v_rc1_b) by concrete.
  split; [exact Wa|]. split; [exact Wb|].
  apply (proj2 (CompareTo_zero_iff v_rc1_a v_rc1_b Wa Wb)).
  split; [reflexivity|]. split; [reflexivity|]. split; reflexivity.
Defined.

Lemma CompareTo_antisym_witness :
  plain v_rc1_a /\ plain v_rc2 /\
  CompareTo v_rc2 v_rc1_a = - CompareTo v_rc1_a v_rc2.
Proof.
  assert (Pa : plain v_rc1_a) by concrete.
  assert (Pb : plain v_rc2) by concrete.
  split; [exact Pa|]. split; [exact Pb|].
  exact (CompareTo_antisym v_rc1_a v_rc2 Pa Pb).
Defined.

Lemma CompareTo_trans_witness :
  plain v_rc1_a /\ plain v_rc2 /\ plain (v3 1 2 3) /\
  CompareTo v_rc1_a v_rc2 <= 0 /\ CompareTo v_rc2 (v3 1 2 3) <= 0 /\
  CompareTo v_rc1_a (v3 1 2 3) < 0.
Proof.
  assert (Pa : plain v_rc1_a) by concrete.
  assert (Pb : plain v_rc2) by concrete.
  assert (Pc : plain (v3 1 2 3)) by concrete.
  assert (Hab : CompareTo v_rc1_a v_rc2 <= 0) by (vm_compute; discriminate).
  assert (Hbc : CompareTo v_rc2 (v3 1 2 3) <= 0) by (vm_compute; discriminate).
  split; [exact Pa|]. split; [exact Pb|]. split; [exact Pc|].
  split; [exact Hab|]. split; [exact Hbc|].
  apply (proj2 (CompareTo_trans v_rc1_a v_rc2 (v3 1 2 3) Pa Pb Pc Hab Hbc)).
  left. vm_compute. reflexivity.
Defined.

Lemma ParseVersion_versionToString_witness :
  versionToString (v3 1 22 333) = "1.22.333" /\
  ParseVersion "1.22.333" = Ok (v3 1 22 333).
Proof.
  split; [reflexivity|].
  apply (ParseVersion_versionToString 1 22 333); unfold Go.MaxInt64; lia.
Defined.

Lemma ParseVersionRange_boundToString_witness :
  boundToString (gtEqRange (v3 1 2 3)) = ">=1.2.3" /\
  ParseVersionRange ">=1.2.3"
  = Ok (Some (mkRange ">=1.2.3" [gtEqRange (v3 1 2 3)])).
Proof.
  split; [reflexivity|].
  apply (ParseVersionRange_boundToString 1 2 3 (gtEqRange (v3 1 2 3)));
    try (unfold Go.MaxInt64; lia).
  right. right. left. reflexivity.
Defined.

Lemma ParseVersion_invariants_witness :
  exists v,
    ParseVersion "1.2.3-rc.1+build.5" = Ok v /\
    in_range v /\
    (forall l, preRelease v = Some l -> l <> [] /\ Forall seg_in_int l) /\
    (forall l, build v = Some l -> l <> [] /\ Forall seg_is_text l).
Proof.
  eexists. split; [evaluate|].
  apply (ParseVersion_invariants "1.2.3-rc.1+build.5"). evaluate.
Defined.

Lemma newVersionRange_settled_witness :
  settled [ltRange (v3 1 0 0); gtEqRange (v3 2 0 0)] /\
  newVersionRange "<1.0.0 || >=2.0.0" [ltRange (v3 1 0 0); gtEqRange (v3 2 0 0)]
  = mkRange "<1.0.0 || >=2.0.0" [ltRange (v3 1 0 0); gtEqRange (v3 2 0 0)].
Proof.
  assert (S : settled [ltRange (v3 1 0 0); gtEqRange (v3 2 0 0)]).
  { unfold settled. constructor.
    - constructor; [evaluate | constructor].
    - constructor; constructor. }
  split; [exact S|].
  apply newVersionRange_settled; [discriminate | exact S].
Defined.

Lemma Includes_MatchAll_MatchNone_witness :
  in_range v_rc2 /\
  Includes MatchAll (Some v_rc2) = IsStable v_rc2 /\
  Includes MatchNone (Some v_rc2) = false.
Proof.
  assert (R : in_range v_rc2) by concrete.
  split; [exact R | exact (Includes_MatchAll_MatchNone v_rc2 R)].
Defined.

Lemma Includes_ExactVersionRange_witness :
  well_formed v_rc1_a /\ well_formed v_rc1_b /\
  Includes (ExactVersionRange v_rc1_a) (Some v_rc1_b) = true.
Proof.
  assert (Wa : well_formed v_rc1_a) by concrete.
  assert (Wb : well_formed v_rc1_b) by concrete.
  split; [exact Wa|]. split; [exact Wb|].
  apply (proj2 (Includes_ExactVersionRange v_rc1_a v_rc1_b Wa Wb)).
  split; [reflexivity|]. split; [reflexivity|]. split; reflexivity.
Defined.

Lemma Equals_CompareTo_witness :
  well_formed v_rc1_a /\ well_formed v_rc1_b /\
  (Equals v_rc1_a v_rc1_b = true <->
   CompareTo v_rc1_a v_rc1_b = 0 /\ build v_rc1_a = build v_rc1_b).
Proof.
  assert (Wa : well_formed v_rc1_a) by concrete.
  assert (Wb : well_formed v_rc1_b) by concrete.
  split; [exact Wa|]. split; [exact Wb|].
  exact (Equals_CompareTo v_rc1_a v_rc1_b Wa Wb).
Defined.

Lemma FromVersions_includes_stable_witness :
  includes (ltRange (v3 2 0 0)) (v3 1 0 0) = true /\
  Includes (FromVersions (v3 1 0 0) false (v3 2 0 0) true) (Some (v3 5 0 0)) = true.
Proof.
  split; [reflexivity|].
  apply (FromVersions_includes_stable (v3 1 0 0) (v3 2 0 0) (v3 5 0 0) false true);
    try concrete; reflexivity.
Defined.

Lemma NewVersion3_texts_witness :
  exists v,
    NewVersion3 1 2 3 "rc.1" "build.5" = Ok v /\
    Build v = "build.5" /\ PreRelease v = "rc.1" /\
    versionToString v = "1.2.3-rc.1+build.5".
Proof.
  eexists. split; [evaluate|].
  destruct (NewVersion3_texts 1 2 3 "rc.1" "build.5" _ eq_refl) as [B H].
  destruct (H eq_refl) as [P T].
  split; [exact B|]. split; [exact P | exact T].
Defined.

Lemma ParseVersionRange_updates_witness :
  ParseVersionRange "1"
  = Ok (Some (mkRange "1" [startEndRange (gtEqRange (v3 1 0 0)) (ltRange (v3 2 0 0))])) /\
  ParseVersionRange "1.2"
  = Ok (Some (mkRange "1.2" [startEndRange (gtEqRange (v3 1 2 0)) (ltRange (v3 1 3 0))])) /\
  ParseVersionRange "~1.2.3"
  = Ok (Some (mkRange "~1.2.3" [startEndRange (gtEqRange (v3 1 2 3)) (ltRange (v3 1 3 0))])) /\
  ParseVersionRange "^1.2.3"
  = Ok (Some (mkRange "^1.2.3" [startEndRange (gtEqRange (v3 1 2 3)) (ltRange (v3 2 0 0))])).
Proof.
  apply (ParseVersionRange_updates 1 2 3); unfold Go.MaxInt64; lia.
Defined.

Lemma Includes_updates_witness :
  in_range (v3 1 2 7) /\
  Includes (mkRange "~1.2.3" [startEndRange (gtEqRange (v3 1 2 3)) (ltRange (v3 1 3 0))])
    (Some (v3 1 2 7)) = true.
Proof.
  assert (R : in_range (v3 1 2 7)) by concrete.
  split; [exact R|].
  apply (proj2 (proj1 (Includes_updates "~1.2.3" 1 2 3 (v3 1 2 7)
                         ltac:(unfold Go.MaxInt64; lia) ltac:(unfold Go.MaxInt64; lia)
                         ltac:(unfold Go.MaxInt64; lia) R))).
  cbn [major minor patch v3]. split; [reflexivity|]. lia.
Defined.

End Instances.
